(** * octodns-infomaniak: the provider's cache, translation and apply logic

    A shallow embedding of [octodns_infomaniak/__init__.py]
    ([InfomaniakClient] and [InfomaniakProvider]) and the properties of
    its zone-record cache, of the translation between the provider's raw
    rows and octoDNS records, and of the change handlers.

    Python objects that the code mutates ([self._zone_records], the
    records carried by a change, the zone handed to [populate]) are
    modelled by explicit state; exceptions by a sum in the result.  The
    HTTP session is the one external collaborator: it is a parameter
    [net] giving the response to a request after a history of requests. *)

From Stdlib Require Import Ascii String.
From stdpp Require Import gmap strings list fin_maps pretty.

(** ** Python string helpers *)

(** [s[:-1]] *)
Fixpoint drop_last (s : string) : string :=
  match s with
  | EmptyString => EmptyString
  | String c s' =>
      match s' with
      | EmptyString => EmptyString
      | String _ _ => String c (drop_last s')
      end
  end.

(** [s.rstrip(ch)] for a one-character [ch] *)
Fixpoint rstrip (ch : Ascii.ascii) (s : string) : string :=
  match s with
  | EmptyString => EmptyString
  | String c s' =>
      match rstrip ch s' with
      | EmptyString => if Ascii.eqb c ch then EmptyString else String c EmptyString
      | String _ _ as t => String c t
      end
  end.

(** ** Data *)

(** The exceptions that can leave the code.  [HTTPError] is what
    [res.raise_for_status()] raises (it is a [requests] exception, not an
    [InfomaniakClientException]); [AttributeError], [IndexError] and
    [KeyError] are the interpreter's own, for [getattr], [records[0]]
    and [d[k]]. *)
Inductive Exn : Type :=
| InfomaniakClientBadRequest
| InfomaniakClientUnauthorized
| HTTPError (status : Z)
| AttributeError (attr : string)
| IndexError
| KeyError (key : string).

(** [isinstance(e, InfomaniakClientException)] *)
Definition is_InfomaniakClientException (e : Exn) : bool :=
  match e with
  | InfomaniakClientBadRequest | InfomaniakClientUnauthorized => true
  | _ => false
  end.

(** One row of the provider's answer: the dict with keys
    ["id"], ["source"], ["type"], ["ttl"], ["target"]. *)
Record RawRecord : Type := mkRaw {
  rr_id : string;
  rr_source : string;
  rr_type : string;
  rr_ttl : Z;
  rr_target : string
}.

(** The dict yielded by [_params_for_*]. *)
Record Params : Type := mkParams {
  p_target : string;
  p_source : string;
  p_ttl : Z;
  p_type : string
}.

(** The dict returned by [_data_for_*]. *)
Record Data : Type := mkData {
  d_ttl : Z;
  d_type : string;
  d_value : string
}.

(** An octoDNS record as far as this code reads it: [zone] stands for
    [record.zone.name]; an A or AAAA record has [values], a CNAME has
    [value]. *)
Module Rec.
Inductive payload : Type :=
| Values (vs : list string)
| Value (v : string).

Record t : Type := mk {
  zone : string;
  name : string;
  _type : string;
  ttl : Z;
  data : payload
}.

Definition set_name (n : string) (r : t) : t :=
  {| zone := zone r; name := n; _type := _type r; ttl := ttl r; data := data r |}.

(** [record.values] *)
Definition values (r : t) : Exn + list string :=
  match data r with
  | Values vs => inr vs
  | Value _ => inl (AttributeError "values")
  end.

(** [record.value] *)
Definition value (r : t) : Exn + string :=
  match data r with
  | Value v => inr v
  | Values _ => inl (AttributeError "value")
  end.
End Rec.

(** The zone container handed to [populate]: its name and the records
    given to [zone.add_record], in the order they were given.  What the
    container does with them (it may reject a record) is octoDNS's and
    is not part of this model. *)
Module Zone.
Record t : Type := mk {
  name : string;
  records : list Rec.t
}.

Definition add_record (r : Rec.t) (z : t) : t :=
  {| name := name z; records := records z ++ [r] |}.
End Zone.

(** References to the record objects a plan's changes carry. *)
Definition loc : Type := nat.

Inductive Change : Type :=
| Create (new : loc)
| Update (existing new : loc)
| Delete (existing : loc).

Record Plan : Type := mkPlan {
  desired : string;      (* plan.desired.name *)
  changes : list Change
}.

(** ** The HTTP session *)

Inductive Method : Type := GET | POST | DELETE.

Record Request : Type := mkRequest {
  method : Method;
  url : string;
  json : option Params
}.

(** A response: its status and, for a 2xx answer to GET, the ["data"]
    field of the decoded body.  The session is taken to answer every
    request, with a body that decodes. *)
Record Response : Type := mkResponse {
  status_code : Z;
  data : list RawRecord
}.

(** The session: the response to a request, given the requests sent
    before it (oldest first). *)
Definition Transport : Type := list Request → Request → Response.

(** ** State *)

Inductive Warning : Type :=
| SkipUnsupported (_type _name zone : string).

Record World : Type := mkWorld {
  _zone_records : gmap string (list RawRecord);   (* self._zone_records *)
  sent : list Request;                            (* requests issued so far *)
  heap : loc → Rec.t;                             (* the records of the changes *)
  warnings : list Warning                         (* self.log.warning calls *)
}.

Definition set_zone_records (f : gmap string (list RawRecord) → gmap string (list RawRecord))
    (w : World) : World :=
  {| _zone_records := f (_zone_records w); sent := sent w; heap := heap w;
     warnings := warnings w |}.

Definition set_sent (f : list Request → list Request) (w : World) : World :=
  {| _zone_records := _zone_records w; sent := f (sent w); heap := heap w;
     warnings := warnings w |}.

Definition set_heap (f : (loc → Rec.t) → (loc → Rec.t)) (w : World) : World :=
  {| _zone_records := _zone_records w; sent := sent w; heap := f (heap w);
     warnings := warnings w |}.

Definition set_warnings (f : list Warning → list Warning) (w : World) : World :=
  {| _zone_records := _zone_records w; sent := sent w; heap := heap w;
     warnings := f (warnings w) |}.

Definition heap_update (l : loc) (f : Rec.t → Rec.t) (h : loc → Rec.t) : loc → Rec.t :=
  λ l', if Nat.eqb l l' then f (h l') else h l'.

(** ** State and exceptions *)

Definition M (S A : Type) : Type := S → (Exn + A) * S.

Definition pure {S A} (a : A) : M S A := λ s, (inr a, s).
Definition raise {S A} (e : Exn) : M S A := λ s, (inl e, s).
Definition gets {S A} (f : S → A) : M S A := λ s, (inr (f s), s).
Definition modify {S} (f : S → S) : M S unit := λ s, (inr tt, f s).
Definition lift {S A} (r : Exn + A) : M S A := λ s, (r, s).

Definition and_then {S A B} (m : M S A) (k : A → M S B) : M S B :=
  λ s, match m s with
       | (inl e, s') => (inl e, s')
       | (inr a, s') => k a s'
       end.

(** [try: m  except: h e] *)
Definition try_except {S A} (m : M S A) (h : Exn → M S A) : M S A :=
  λ s, match m s with
       | (inl e, s') => h e s'
       | (inr a, s') => (inr a, s')
       end.

Notation "x <- m ;; k" := (and_then m (λ x, k))
  (at level 62, m at next level, right associativity, only parsing).

(** [for x in l: body x] *)
Fixpoint for_each {S A} (body : A → M S unit) (l : list A) : M S unit :=
  match l with
  | [] => pure tt
  | x :: l' => _ <- body x ;; for_each body l'
  end.

(** ** InfomaniakClient *)

Section Provider.

Variable net : Transport.

Definition BASE : string := "https://api.infomaniak.com".

(** [InfomaniakClient._request]: the request is sent, then the status
    decides.  [raise_for_status] raises for 400 <= status < 600. *)
Definition _request (method_ : Method) (path : string) (data_ : option Params)
    : M World Response :=
  λ w,
    let req := {| method := method_; url := BASE +:+ path; json := data_ |} in
    let res := net (sent w) req in
    let w' := set_sent (λ l, l ++ [req]) w in
    if (status_code res =? 400)%Z then (inl InfomaniakClientBadRequest, w')
    else if (status_code res =? 401)%Z then (inl InfomaniakClientUnauthorized, w')
    else if ((400 <=? status_code res) && (status_code res <? 600))%Z
         then (inl (HTTPError (status_code res)), w')
    else (inr res, w').

Definition records_path (domain_name : string) : string :=
  "/1/domain/" +:+ domain_name +:+ "/dns/record".

(** [InfomaniakClient.records] *)
Definition records (domain_name : string) : M World (list RawRecord) :=
  let domain_name := rstrip "."%char domain_name in
  res <- _request GET (records_path domain_name) None ;;
  pure (data res).

(** [InfomaniakClient.record_create] *)
Definition record_create (domain_name : string) (params : Params) : M World unit :=
  _ <- _request POST (records_path domain_name) (Some params) ;;
  pure tt.

(** [InfomaniakClient.record_delete] *)
Definition record_delete (domain_name : string) (record_id : string) : M World unit :=
  _ <- _request DELETE (records_path domain_name +:+ "/" +:+ record_id) None ;;
  pure tt.

(** ** InfomaniakProvider *)

Definition SUPPORTS : gset string := {[ "A"; "AAAA"; "CNAME" ]}.

(** [zone_records]: the cache in front of [records].  Only
    [zone.name] is read from the zone. *)
Definition zone_records (zone_name : string) : M World (list RawRecord) :=
  cache <- gets _zone_records ;;
  early <-
    (match cache !! zone_name with
    | None =>
        try_except
          (rs <- records (drop_last zone_name) ;;
           _ <- modify (set_zone_records (<[zone_name := rs]>)) ;;
           pure None)
          (λ e, if is_InfomaniakClientException e then pure (Some []) else raise e)
    | Some _ => pure None
    end) ;;
  match early with
  | Some r => pure r
  | None =>
      cache <- gets _zone_records ;;
      match cache !! zone_name with
      | Some rs => pure rs
      | None => raise (KeyError zone_name)
      end
  end.

(** [_data_for_generic] *)
Definition _data_for_generic (_type : string) (records : list RawRecord) : Exn + Data :=
  match records with
  | [] => inl IndexError
  | r0 :: _ => inr {| d_ttl := rr_ttl r0; d_type := _type; d_value := rr_target r0 |}
  end.

(** [getattr(self, f"_data_for_{_type}")] *)
Definition _data_for (_type : string) : Exn + (string → list RawRecord → Exn + Data) :=
  if bool_decide (_type ∈ ["A"; "AAAA"; "CNAME"; "generic"])
  then inr _data_for_generic
  else inl (AttributeError ("_data_for_" +:+ _type)).

(** [_params_for_generic]: a generator of one dict *)
Definition _params_for_generic (record : Rec.t) : Exn + list Params :=
  match Rec.value record with
  | inl e => inl e
  | inr v =>
      inr [ {| p_target := v; p_source := Rec.name record; p_ttl := Rec.ttl record;
               p_type := Rec._type record |} ]
  end.

(** [_params_for_multiple]: a generator of one dict per value *)
Definition _params_for_multiple (record : Rec.t) : Exn + list Params :=
  match Rec.values record with
  | inl e => inl e
  | inr vs =>
      inr (map (λ value, {| p_target := value; p_source := Rec.name record;
                            p_ttl := Rec.ttl record; p_type := Rec._type record |}) vs)
  end.

(** [getattr(self, f"_params_for_{_type}")] *)
Definition _params_for (_type : string) : Exn + (Rec.t → Exn + list Params) :=
  if bool_decide (_type ∈ ["A"; "AAAA"; "multiple"]) then inr _params_for_multiple
  else if bool_decide (_type ∈ ["CNAME"; "generic"]) then inr _params_for_generic
  else inl (AttributeError ("_params_for_" +:+ _type)).

(** *** populate *)

(** [d[k] = f(d[k])] on a [defaultdict] with default [dflt]; the keys
    keep their insertion order. *)
Fixpoint defaultdict_update {V} (k : string) (f : V → V) (dflt : V)
    (d : list (string * V)) : list (string * V) :=
  match d with
  | [] => [(k, f dflt)]
  | (k', v) :: d' =>
      if String.eqb k k' then (k', f v) :: d'
      else (k', v) :: defaultdict_update k f dflt d'
  end.

Definition Groups : Type := list (string * list (string * list RawRecord)).

(** The body of the first loop of [populate]. *)
Definition group_record (zone_name : string) (values : Groups) (record : RawRecord)
    : M World Groups :=
  let _type := rr_type record in
  let _name := rr_source record in
  if bool_decide (_type ∉ SUPPORTS) then
    _ <- modify (set_warnings (λ l, l ++ [SkipUnsupported _type _name zone_name])) ;;
    pure values
  else
    pure (defaultdict_update _name
            (defaultdict_update _type (λ rs, rs ++ [record]) []) [] values).

Fixpoint group_records (zone_name : string) (values : Groups) (raws : list RawRecord)
    : M World Groups :=
  match raws with
  | [] => pure values
  | record :: raws' =>
      values' <- group_record zone_name values record ;;
      group_records zone_name values' raws'
  end.

(** [Record.new(zone, name, data)] of octoDNS, for the dicts
    [_data_for_generic] builds: the record class is chosen by
    [data["type"]]; a record with values takes [[data["value"]]] when
    [data] has no ["values"], a CNAME takes [data["value"]]. *)
Definition Record_new (zone : Zone.t) (name : string) (d : Data) : Rec.t :=
  {| Rec.zone := Zone.name zone; Rec.name := name; Rec._type := d_type d;
     Rec.ttl := d_ttl d;
     Rec.data := if bool_decide (d_type d ∈ ["A"; "AAAA"])
                 then Rec.Values [d_value d] else Rec.Value (d_value d) |}.

(** The inner loop of the second loop of [populate]; [name] is the
    loop variable of the outer loop, reassigned in the body. *)
Fixpoint add_types (name : string) (types : list (string * list RawRecord))
    : M Zone.t unit :=
  match types with
  | [] => pure tt
  | (_type, records) :: types' =>
      data_for <- lift (_data_for _type) ;;
      let name := if bool_decide (name = ".") then "" else name in
      d <- lift (data_for _type records) ;;
      zone <- gets id ;;
      _ <- modify (Zone.add_record (Record_new zone name d)) ;;
      add_types name types'
  end.

Definition add_groups (values : Groups) : M Zone.t unit :=
  for_each (λ nt, add_types nt.1 nt.2) values.

(** [populate]: the result, the zone as it is left, the state. *)
Definition populate (zone : Zone.t) : World → (Exn + bool) * Zone.t * World :=
  λ w,
    match (raws <- zone_records (Zone.name zone) ;;
           group_records (Zone.name zone) [] raws) w with
    | (inl e, w1) => (inl e, zone, w1)
    | (inr values, w1) =>
        match add_groups values zone with
        | (inl e, zone') => (inl e, zone', w1)
        | (inr _, zone') =>
            let exists_ := bool_decide (Zone.name zone ∈ dom (_zone_records w1)) in
            (* the arguments of self.log.info *)
            match records (Zone.name zone) w1 with
            | (inl e, w2) => (inl e, zone', w2)
            | (inr _, w2) => (inr exists_, zone', w2)
            end
        end
    end.

(** *** apply *)

(** [_apply_create] *)
Definition _apply_create (new_ : loc) : M World unit :=
  new <- gets (λ w, heap w new_) ;;
  params_for <- lift (_params_for (Rec._type new)) ;;
  ps <- lift (params_for new) ;;
  for_each (λ params, record_create (drop_last (Rec.zone new)) params) ps.

(** [_apply_delete] *)
Definition _apply_delete (existing_ : loc) : M World unit :=
  existing <- gets (λ w, heap w existing_) ;;
  let zone := Rec.zone existing in
  _ <- (if bool_decide (Rec.name existing = "")
        then modify (set_heap (heap_update existing_ (Rec.set_name ".")))
        else pure tt) ;;
  raws <- zone_records zone ;;
  for_each
    (λ record,
       existing <- gets (λ w, heap w existing_) ;;
       if bool_decide (Rec.name existing = rr_source record)
          && bool_decide (Rec._type existing = rr_type record)
       then record_delete (drop_last zone) (rr_id record)
       else pure tt)
    raws.

(** [_apply_update] *)
Definition _apply_update (existing_ new_ : loc) : M World unit :=
  _ <- _apply_delete existing_ ;;
  _apply_create new_.

(** [getattr(self, f"_apply_{class_name}")(change)] *)
Definition apply_change (change : Change) : M World unit :=
  match change with
  | Create new_ => _apply_create new_
  | Update existing_ new_ => _apply_update existing_ new_
  | Delete existing_ => _apply_delete existing_
  end.

(** [_apply] *)
Definition _apply (plan : Plan) : M World unit :=
  _ <- for_each apply_change (changes plan) ;;
  modify (set_zone_records (delete (desired plan))).

End Provider.

Arguments _request net method_ path data_ w : simpl never.

(** ** Sessions and states used in the examples *)

Global Instance Method_eq_dec : EqDecision Method.
Proof. solve_decision. Defined.

(** A provider that keeps what it is sent: a POST to a collection adds a
    row with a fresh id, a DELETE of [collection/id] removes that row,
    a GET of a collection lists its rows in the order they were added;
    every answer is 200. *)
Definition ideal_step (st : nat * list (string * RawRecord)) (req : Request)
    : nat * list (string * RawRecord) :=
  match method req, json req with
  | POST, Some p =>
      (S st.1,
       st.2 ++ [(url req, {| rr_id := pretty st.1; rr_source := p_source p;
                             rr_type := p_type p; rr_ttl := p_ttl p;
                             rr_target := p_target p |})])
  | DELETE, _ =>
      (st.1, filter (λ cr, cr.1 +:+ "/" +:+ rr_id cr.2 ≠ url req) st.2)
  | _, _ => st
  end.

Definition ideal_from (rows : list (string * RawRecord)) : Transport :=
  λ history req,
    let st := fold_left ideal_step history (length rows, rows) in
    {| status_code := 200;
       data := match method req with
               | GET => (filter (λ cr, cr.1 = url req) st.2).*2
               | _ => []
               end |}.

Definition ideal : Transport := ideal_from [].

(** The same provider, answering every request of method [m] with [status]. *)
Definition refusing (m : Method) (status : Z) (rows : list (string * RawRecord)) : Transport :=
  λ history req,
    if bool_decide (method req = m) then {| status_code := status; data := [] |}
    else ideal_from rows history req.

(** A session that answers every request with [status]. *)
Definition answering (status : Z) : Transport :=
  λ _ _, {| status_code := status; data := [] |}.

Definition heap_of (rs : list Rec.t) (dflt : Rec.t) : loc → Rec.t :=
  λ l, nth l rs dflt.

Definition world0 (rs : list Rec.t) (dflt : Rec.t) : World :=
  {| _zone_records := ∅; sent := []; heap := heap_of rs dflt; warnings := [] |}.

(** ** Vocabulary of the statements *)

(** What [_request] makes of a response. *)
Definition classify (res : Response) : Exn + Response :=
  if (status_code res =? 400)%Z then inl InfomaniakClientBadRequest
  else if (status_code res =? 401)%Z then inl InfomaniakClientUnauthorized
  else if ((400 <=? status_code res) && (status_code res <? 600))%Z
       then inl (HTTPError (status_code res))
  else inr res.

(** The request [records domain_name] sends. *)
Definition fetch_request (domain_name : string) : Request :=
  {| method := GET; url := BASE +:+ records_path (rstrip "."%char domain_name);
     json := None |}.

(** The request [record_create domain_name params] sends. *)
Definition create_request (domain_name : string) (params : Params) : Request :=
  {| method := POST; url := BASE +:+ records_path domain_name; json := Some params |}.

(** The request [record_delete domain_name record_id] sends. *)
Definition delete_request (domain_name : string) (record_id : string) : Request :=
  {| method := DELETE; url := BASE +:+ (records_path domain_name +:+ "/" +:+ record_id);
     json := None |}.

Definition log_request (req : Request) (w : World) : World :=
  set_sent (λ l, l ++ [req]) w.

(** The record a change's delete half works on. *)
Definition existing_of (c : Change) : option loc :=
  match c with
  | Create _ => None
  | Update existing_ _ | Delete existing_ => Some existing_
  end.

(** [_type in self.SUPPORTS] *)
Definition supported (_type : string) : bool := bool_decide (_type ∈ SUPPORTS).

(** The first loop of [populate] without its warnings. *)
Definition group_step (values : Groups) (record : RawRecord) : Groups :=
  if supported (rr_type record)
  then defaultdict_update (rr_source record)
         (defaultdict_update (rr_type record) (λ rs, rs ++ [record]) []) [] values
  else values.

Definition grouped (raws : list RawRecord) : Groups := fold_left group_step raws [].

(** The warnings of the first loop of [populate]. *)
Definition skipped (zone_name : string) (raws : list RawRecord) : list Warning :=
  (λ r, SkipUnsupported (rr_type r) (rr_source r) zone_name)
    <$> filter (λ r, supported (rr_type r) = false) raws.

(** The apex as [populate] names it. *)
Definition apex (name : string) : string :=
  if bool_decide (name = ".") then "" else name.

(** The record [populate] adds for the group of [name] and [_type]
    whose first row is [r0]. *)
Definition record_for (zone_name name _type : string) (r0 : RawRecord) : Rec.t :=
  {| Rec.zone := zone_name; Rec.name := apex name; Rec._type := _type;
     Rec.ttl := rr_ttl r0;
     Rec.data := if bool_decide (_type ∈ ["A"; "AAAA"])
                 then Rec.Values [rr_target r0] else Rec.Value (rr_target r0) |}.

Definition added_types (zone_name name : string) (types : list (string * list RawRecord))
    : list Rec.t :=
  flat_map (λ tr, match tr.2 with
                  | r0 :: _ => [record_for zone_name name tr.1 r0]
                  | [] => []
                  end) types.

(** The records [populate] adds for the groups [values]. *)
Definition added (zone_name : string) (values : Groups) : list Rec.t :=
  flat_map (λ nt, added_types zone_name nt.1 nt.2) values.

(** Groups as the first loop builds them: supported types, no empty group. *)
Definition types_ok (types : list (string * list RawRecord)) : Prop :=
  Forall (λ tr, supported tr.1 = true ∧ tr.2 ≠ []) types.

Definition groups_ok (values : Groups) : Prop :=
  Forall (λ nt, types_ok nt.2) values.

Definition has_group (name _type : string) (values : Groups) : Prop :=
  ∃ types rs, (name, types) ∈ values ∧ (_type, rs) ∈ types.

(** Groups whose rows all come from [raws]. *)
Definition rows_from (raws : list RawRecord) (values : Groups) : Prop :=
  ∀ name types t rs r, (name, types) ∈ values → (t, rs) ∈ types → r ∈ rs → r ∈ raws.

(** The test in the loop of [_apply_delete]. *)
Definition matches (existing : Rec.t) (record : RawRecord) : bool :=
  bool_decide (Rec.name existing = rr_source record)
  && bool_decide (Rec._type existing = rr_type record).

(** The body of the loop of [_apply_delete]. *)
Definition delete_matching (net : Transport) (existing_ : loc) (zone : string)
    (record : RawRecord) : M World unit :=
  existing <- gets (λ w, heap w existing_) ;;
  if matches existing record
  then record_delete net (drop_last zone) (rr_id record)
  else pure tt.

(** The state of [_apply_delete] after its apex test. *)
Definition dot_apex (existing_ : loc) (w : World) : World :=
  if bool_decide (Rec.name (heap w existing_) = "")
  then set_heap (heap_update existing_ (Rec.set_name ".")) w
  else w.

(** Two states that differ in the requests sent only. *)
Definition same_store (w w' : World) : Prop :=
  _zone_records w' = _zone_records w ∧ heap w' = heap w ∧ warnings w' = warnings w.

(** The parameter objects of a record: [_params_for_*] chosen by type. *)
Definition params_of (record : Rec.t) : Exn + list Params :=
  match _params_for (Rec._type record) with
  | inl e => inl e
  | inr params_for => params_for record
  end.

(** The parameter object for one value of a record. *)
Definition param (record : Rec.t) (value : string) : Params :=
  {| p_target := value; p_source := Rec.name record; p_ttl := Rec.ttl record;
     p_type := Rec._type record |}.

(** A record as octoDNS builds it for a supported type: values for A
    and AAAA, a value for CNAME. *)
Definition well_formed (record : Rec.t) : bool :=
  match Rec.data record with
  | Rec.Values _ => bool_decide (Rec._type record ∈ ["A"; "AAAA"])
  | Rec.Value _ => bool_decide (Rec._type record = "CNAME")
  end.

(** The records one call of [populate] hands to the zone. *)
Definition populated (net : Transport) (zone : Zone.t) (w : World) : list Rec.t :=
  drop (length (Zone.records zone)) (Zone.records (populate net zone w).1.2).

(** ** Example data *)

Definition example_zone : Zone.t :=
  {| Zone.name := "example.com."; Zone.records := [] |}.

Definition www_A : Rec.t :=
  {| Rec.zone := "example.com."; Rec.name := "www"; Rec._type := "A"; Rec.ttl := 300;
     Rec.data := Rec.Values ["1.1.1.1"; "2.2.2.2"] |}.

Definition apex_A : Rec.t :=
  {| Rec.zone := "example.com."; Rec.name := ""; Rec._type := "A"; Rec.ttl := 300;
     Rec.data := Rec.Values ["1.1.1.1"] |}.

Definition www_CNAME : Rec.t :=
  {| Rec.zone := "example.com."; Rec.name := "www"; Rec._type := "CNAME"; Rec.ttl := 600;
     Rec.data := Rec.Value "example.com." |}.

(** A provider object just built, with the three records above at
    references 0, 1 and 2. *)
Definition fresh : World := world0 [www_A; apex_A; www_CNAME] www_A.

Definition apex_row : RawRecord :=
  {| rr_id := "7"; rr_source := "."; rr_type := "A"; rr_ttl := 300;
     rr_target := "1.1.1.1" |}.

Definition mx_row : RawRecord :=
  {| rr_id := "8"; rr_source := "."; rr_type := "MX"; rr_ttl := 300;
     rr_target := "mail.example.com." |}.

Definition www_row : RawRecord :=
  {| rr_id := "9"; rr_source := "www"; rr_type := "A"; rr_ttl := 300;
     rr_target := "2.2.2.2" |}.

(** The rows the example provider holds for example.com. *)
Definition example_rows : list (string * RawRecord) :=
  (λ r, (BASE +:+ records_path "example.com", r)) <$> [apex_row; mx_row; www_row].

(** The provider object with example.com. cached. *)
Definition cached : World :=
  set_zone_records (<["example.com." := [apex_row; mx_row; www_row]]>) fresh.

(** A plan that creates the record at reference 0, and the state after
    [_apply] has run it against the example provider. *)
Definition create_plan : Plan :=
  {| desired := "example.com."; changes := [Create 0] |}.

Definition after_create : World := (_apply ideal create_plan fresh).2.

(** The example provider, refusing every POST with 400. *)
Definition refusing_post : Transport := refusing POST 400 example_rows.

Definition cname_plan : Plan :=
  {| desired := "example.com."; changes := [Create 2] |}.

Definition mixed_plan : Plan :=
  {| desired := "example.com."; changes := [Delete 1; Create 2; Create 0] |}.

(** The rows with a source and a type, in the order of the list. *)
Definition rows_of (name _type : string) (raws : list RawRecord) : list RawRecord :=
  filter (λ r, rr_source r = name ∧ rr_type r = _type) raws.

(** The (source, type) pairs of the groups, in the order [populate]
    visits them. *)
Definition group_keys (values : Groups) : list (string * string) :=
  flat_map (λ nt, (λ tr, (nt.1, tr.1)) <$> nt.2) values.

(** The name and type of a record. *)
Definition key_of (rec : Rec.t) : string * string := (Rec.name rec, Rec._type rec).

(** Groups that hold, under each name and type once, exactly the rows
    of that name and type. *)
Definition types_exact (raws : list RawRecord) (name : string)
    (types : list (string * list RawRecord)) : Prop :=
  NoDup types.*1 ∧
  Forall (λ tr, supported tr.1 = true ∧ tr.2 ≠ [] ∧ tr.2 = rows_of name tr.1 raws) types.

Definition groups_exact (raws : list RawRecord) (values : Groups) : Prop :=
  NoDup values.*1 ∧ Forall (λ nt, types_exact raws nt.1 nt.2) values.

(** The source and type of a row. *)
Definition row_key (r : RawRecord) : string * string := (rr_source r, rr_type r).

(** The requests a run added, all satisfying [P]. *)
Definition sent_more (P : Request → Prop) (w w' : World) : Prop :=
  ∃ new, sent w' = sent w ++ new ∧ Forall P new.

(** The source [_apply_delete] looks for. *)
Definition delete_source (existing : Rec.t) : string :=
  if bool_decide (Rec.name existing = "") then "." else Rec.name existing.

(** The row of a provider that keeps a parameter object as it was
    sent, under an id. *)
Definition row_of (id : string) (p : Params) : RawRecord :=
  {| rr_id := id; rr_source := p_source p; rr_type := p_type p; rr_ttl := p_ttl p;
     rr_target := p_target p |}.

(** A record of a type the provider has no [_params_for_*] for. *)
Definition mx_record : Rec.t :=
  {| Rec.zone := "example.com."; Rec.name := "mail"; Rec._type := "MX"; Rec.ttl := 300;
     Rec.data := Rec.Values ["10 mail.example.com."] |}.

Definition fresh_mx : World := world0 [mx_record] mx_record.

(** A row whose source is the empty string, beside the apex row. *)
Definition empty_source_row : RawRecord :=
  {| rr_id := "10"; rr_source := ""; rr_type := "A"; rr_ttl := 60; rr_target := "3.3.3.3" |}.

Definition colliding_rows : list (string * RawRecord) :=
  (λ r, (BASE +:+ records_path "example.com", r)) <$> [apex_row; empty_source_row].

(** A request answered without an error status, after a history of
    requests. *)
Definition answered_ok (net : Transport) (history : list Request) (req : Request) : Prop :=
  ∃ res, classify (net history req) = inr res.

(** A plan that creates the apex record (reference 1), and the state
    after [_apply] has run it against the example provider. *)
Definition apex_plan : Plan :=
  {| desired := "example.com."; changes := [Create 1] |}.

Definition after_apex_create : World := (_apply ideal apex_plan fresh).2.

(** ** The monad *)

Ltac unfold_monad :=
  unfold and_then, try_except, pure, raise, gets, modify, lift in *.

Lemma and_then_inr {S A B} (m : M S A) (k : A → M S B) s a s' :
  m s = (inr a, s') → and_then m k s = k a s'.
Proof. unfold and_then. by intros ->. Qed.

Lemma and_then_inl {S A B} (m : M S A) (k : A → M S B) s e s' :
  m s = (inl e, s') → and_then m k s = (inl e, s').
Proof. unfold and_then. by intros ->. Qed.

Lemma and_then_inv_inr {S A B} (m : M S A) (k : A → M S B) s b s' :
  and_then m k s = (inr b, s') → ∃ a s1, m s = (inr a, s1) ∧ k a s1 = (inr b, s').
Proof.
  unfold and_then. destruct (m s) as [[e|a] s1]; [done|]. intros H. by exists a, s1.
Qed.

Lemma for_each_app {S A} (body : A → M S unit) (l1 l2 : list A) s :
  for_each body (l1 ++ l2) s =
  match for_each body l1 s with
  | (inl e, s') => (inl e, s')
  | (inr _, s') => for_each body l2 s'
  end.
Proof.
  revert s. induction l1 as [|x l1 IH]; intros s; simpl; [done|].
  unfold and_then. destruct (body x s) as [[e|[]] s1]; [done|]. apply IH.
Qed.

(** A failing loop stopped at one element: the elements before it were
    run, the ones after it were not. *)
Lemma for_each_inl {S A} (body : A → M S unit) (l : list A) s e s' :
  for_each body l s = (inl e, s') →
  ∃ pre x post s1,
    l = pre ++ x :: post ∧ for_each body pre s = (inr tt, s1) ∧ body x s1 = (inl e, s').
Proof.
  revert s. induction l as [|x l IH]; intros s; simpl; [done|].
  unfold and_then. destruct (body x s) as [[e1|[]] s1] eqn:Hx.
  - intros [= -> ->]. by exists [], x, l, s.
  - intros (pre & y & post & s2 & -> & Hpre & Hy)%IH.
    exists (x :: pre), y, post, s2. split; [done|]. split; [|done].
    simpl. unfold and_then. by rewrite Hx.
Qed.

(** An invariant of every iteration is an invariant of the loop, whether
    it ends or raises. *)
Lemma for_each_preserves {S A} (R : S → S → Prop) (body : A → M S unit) (l : list A) :
  (∀ s, R s s) → (∀ s1 s2 s3, R s1 s2 → R s2 s3 → R s1 s3) →
  (∀ x s, R s (body x s).2) →
  ∀ s, R s (for_each body l s).2.
Proof.
  intros Hrefl Htrans Hbody. induction l as [|x l IH]; intros s; simpl; [apply Hrefl|].
  unfold and_then. specialize (Hbody x s).
  destruct (body x s) as [[e|[]] s1]; simpl in *; [done|].
  eapply Htrans; [exact Hbody|apply IH].
Qed.

(** ** The client *)

Section Client.

Variable net : Transport.

Lemma _request_eq m path d w :
  _request net m path d w =
  (classify (net (sent w) (mkRequest m (BASE +:+ path) d)),
   log_request (mkRequest m (BASE +:+ path) d) w).
Proof.
  unfold _request, classify, log_request.
  repeat case_match; done.
Qed.

Lemma records_eq domain_name w :
  records net domain_name w =
  (match classify (net (sent w) (fetch_request domain_name)) with
   | inl e => inl e
   | inr res => inr (data res)
   end, log_request (fetch_request domain_name) w).
Proof.
  unfold records, and_then. rewrite _request_eq. fold (fetch_request domain_name).
  by destruct (classify _).
Qed.

Lemma record_create_eq domain_name params w :
  record_create net domain_name params w =
  (match classify (net (sent w) (create_request domain_name params)) with
   | inl e => inl e
   | inr _ => inr tt
   end, log_request (create_request domain_name params) w).
Proof.
  unfold record_create, and_then. rewrite _request_eq.
  fold (create_request domain_name params). by destruct (classify _).
Qed.

Lemma record_delete_eq domain_name record_id w :
  record_delete net domain_name record_id w =
  (match classify (net (sent w) (delete_request domain_name record_id)) with
   | inl e => inl e
   | inr _ => inr tt
   end, log_request (delete_request domain_name record_id) w).
Proof.
  unfold record_delete, and_then. rewrite _request_eq.
  fold (delete_request domain_name record_id). by destruct (classify _).
Qed.

End Client.

(** ** The zone-record cache *)

Section Cache.

Variable net : Transport.

(** A hit answers from the cache and touches nothing. *)
Lemma zone_records_hit zone_name rs w :
  _zone_records w !! zone_name = Some rs →
  zone_records net zone_name w = (inr rs, w).
Proof.
  intros Hhit. unfold zone_records. unfold_monad. simpl. rewrite Hhit. simpl. by rewrite Hhit.
Qed.

(** A miss sends one fetch; the answer's status decides between an
    empty result, an error and a stored entry. *)
Lemma zone_records_miss zone_name w :
  _zone_records w !! zone_name = None →
  zone_records net zone_name w =
  let req := fetch_request (drop_last zone_name) in
  match classify (net (sent w) req) with
  | inl e =>
      (if is_InfomaniakClientException e then inr [] else inl e, log_request req w)
  | inr res =>
      (inr (data res), set_zone_records (<[zone_name := data res]>) (log_request req w))
  end.
Proof.
  intros Hmiss. unfold zone_records. unfold_monad. simpl. rewrite Hmiss, records_eq.
  destruct (classify _) as [e|res]; simpl.
  - by destruct (is_InfomaniakClientException e).
  - by rewrite lookup_insert_eq.
Qed.

(** The cache accessor sends at most one request, and only on a miss. *)
Lemma zone_records_sent zone_name w :
  sent (zone_records net zone_name w).2 =
  match _zone_records w !! zone_name with
  | Some _ => sent w
  | None => sent w ++ [fetch_request (drop_last zone_name)]
  end.
Proof.
  destruct (_zone_records w !! zone_name) as [rs|] eqn:Hc.
  - by rewrite (zone_records_hit _ rs).
  - rewrite zone_records_miss by done. simpl.
    destruct (classify _) as [e|res]; done.
Qed.

(** It never drops or replaces an entry. *)
Lemma zone_records_cache_mono zone_name w :
  _zone_records w ⊆ _zone_records (zone_records net zone_name w).2.
Proof.
  destruct (_zone_records w !! zone_name) as [rs|] eqn:Hc.
  - by rewrite (zone_records_hit _ rs).
  - rewrite zone_records_miss by done. simpl.
    destruct (classify _) as [e|res]; simpl; [done|].
    by apply insert_subseteq.
Qed.

Lemma zone_records_heap zone_name w :
  heap (zone_records net zone_name w).2 = heap w.
Proof.
  destruct (_zone_records w !! zone_name) as [rs|] eqn:Hc.
  - by rewrite (zone_records_hit _ rs).
  - rewrite zone_records_miss by done. simpl. by destruct (classify _).
Qed.

Lemma zone_records_warnings zone_name w :
  warnings (zone_records net zone_name w).2 = warnings w.
Proof.
  destruct (_zone_records w !! zone_name) as [rs|] eqn:Hc.
  - by rewrite (zone_records_hit _ rs).
  - rewrite zone_records_miss by done. simpl. by destruct (classify _).
Qed.

(** What it returns is what the cache holds afterwards, unless the
    fetch failed with a client exception. *)
Lemma zone_records_cached zone_name w raws w1 :
  zone_records net zone_name w = (inr raws, w1) →
  _zone_records w1 !! zone_name = Some raws ∨
  (raws = [] ∧ _zone_records w1 !! zone_name = None ∧ _zone_records w !! zone_name = None).
Proof.
  destruct (_zone_records w !! zone_name) as [rs|] eqn:Hc.
  - rewrite (zone_records_hit _ rs) by done. intros [= <- <-]. by left.
  - rewrite zone_records_miss by done. simpl.
    destruct (classify _) as [e|res].
    + destruct (is_InfomaniakClientException e); [|done].
      intros [= <- <-]. right. done.
    + intros [= <- <-]. left. simpl. by rewrite lookup_insert_eq.
Qed.

End Cache.

(** ** Grouping *)

Lemma supported_cases t :
  supported t = true ↔ t = "A" ∨ t = "AAAA" ∨ t = "CNAME".
Proof.
  unfold supported, SUPPORTS.
  rewrite bool_decide_eq_true, !elem_of_union, !elem_of_singleton. tauto.
Qed.

Lemma supported_data_for t : supported t = true → _data_for t = inr _data_for_generic.
Proof.
  intros Ht%supported_cases. unfold _data_for.
  rewrite bool_decide_eq_true_2; [done|].
  rewrite !elem_of_cons. tauto.
Qed.

Lemma defaultdict_update_Forall {V} (P : string * V → Prop) k f dflt (d : list (string * V)) :
  Forall P d → (∀ v, P (k, v) → P (k, f v)) → P (k, f dflt) →
  Forall P (defaultdict_update k f dflt d).
Proof.
  intros Hd Hf Hnew. induction Hd as [|[k' v] d Hkv Hd IH]; simpl.
  - by constructor.
  - destruct (String.eqb_spec k k') as [<-|Hne].
    + constructor; [by apply Hf|done].
    + by constructor.
Qed.

(** The updated key is present afterwards, the other keys stay. *)
Lemma defaultdict_update_key {V} k f dflt (d : list (string * V)) :
  ∃ v, (k, f v) ∈ defaultdict_update k f dflt d.
Proof.
  induction d as [|[k' v] d IH]; simpl.
  - exists dflt. apply list_elem_of_here.
  - destruct (String.eqb_spec k k') as [<-|Hne].
    + exists v. apply list_elem_of_here.
    + destruct IH as (v' & Hin). exists v'. by apply list_elem_of_further.
Qed.

Lemma defaultdict_update_other {V} k f dflt (d : list (string * V)) k' v :
  k' ≠ k → (k', v) ∈ d → (k', v) ∈ defaultdict_update k f dflt d.
Proof.
  intros Hne. induction d as [|[k'' v''] d IH]; simpl.
  - intros Hin. by apply elem_of_nil in Hin.
  - intros Hin. destruct (String.eqb_spec k k'') as [<-|Hne'].
    + apply elem_of_cons in Hin as [[= -> ->]|Hin]; [done|].
      by apply list_elem_of_further.
    + apply elem_of_cons in Hin as [[= -> ->]|Hin].
      * apply list_elem_of_here.
      * by apply list_elem_of_further, IH.
Qed.

Lemma group_step_ok values record : groups_ok values → groups_ok (group_step values record).
Proof.
  intros Hok. unfold group_step. destruct (supported (rr_type record)) eqn:Hs; [|done].
  apply defaultdict_update_Forall; [done| |].
  - intros types Htypes. simpl in *.
    apply defaultdict_update_Forall; [done| |]; simpl.
    + intros rs [_ _]. split; [done|]. by destruct rs.
    + done.
  - simpl. constructor; [|constructor]. done.
Qed.

Lemma fold_group_step_ok raws values :
  groups_ok values → groups_ok (fold_left group_step raws values).
Proof.
  revert values. induction raws as [|r raws IH]; intros values Hok; simpl; [done|].
  by apply IH, group_step_ok.
Qed.

Lemma grouped_ok raws : groups_ok (grouped raws).
Proof. apply fold_group_step_ok. constructor. Qed.

Lemma group_step_has_group values record n t :
  has_group n t values → has_group n t (group_step values record).
Proof.
  intros (types & rs & Hn & Ht). unfold group_step.
  destruct (supported (rr_type record)); [|by exists types, rs].
  destruct (decide (n = rr_source record)) as [->|Hne].
  - destruct (defaultdict_update_key (rr_source record)
                (defaultdict_update (rr_type record) (λ rs, rs ++ [record]) []) [] values)
      as (types' & Hin).
    destruct (decide (t = rr_type record)) as [->|Hne].
    + destruct (defaultdict_update_key (rr_type record) (λ rs, rs ++ [record]) [] types')
        as (rs' & Hin').
      by eexists _, _.
    + (* the group of another type under the same name *)
      clear Hin types'.
      induction values as [|[n' types'] values IH]; [by apply elem_of_nil in Hn|].
      simpl. destruct (String.eqb_spec (rr_source record) n') as [<-|Hne'].
      * apply elem_of_cons in Hn as [[= <-]|Hn].
        -- eexists _, rs. split; [apply list_elem_of_here|].
           by apply defaultdict_update_other.
        -- exists types, rs. split; [by apply list_elem_of_further|done].
      * apply elem_of_cons in Hn as [[= ? ?]|Hn]; [done|].
        destruct (IH Hn) as (types2 & rs2 & Hn2 & Ht2).
        exists types2, rs2. split; [by apply list_elem_of_further|done].
  - exists types, rs. split; [|done]. by apply defaultdict_update_other.
Qed.

Lemma group_step_new values record :
  supported (rr_type record) = true →
  has_group (rr_source record) (rr_type record) (group_step values record).
Proof.
  intros Hs. unfold group_step. rewrite Hs.
  destruct (defaultdict_update_key (rr_source record)
              (defaultdict_update (rr_type record) (λ rs, rs ++ [record]) []) [] values)
    as (types' & Hin).
  destruct (defaultdict_update_key (rr_type record) (λ rs, rs ++ [record]) [] types')
    as (rs' & Hin').
  by eexists _, _.
Qed.

Lemma fold_group_step_has_group raws values n t :
  has_group n t values → has_group n t (fold_left group_step raws values).
Proof.
  revert values. induction raws as [|r raws IH]; intros values H; simpl; [done|].
  by apply IH, group_step_has_group.
Qed.

(** Every supported row ends up in a group of its name and type. *)
Lemma grouped_has_group raws r :
  r ∈ raws → supported (rr_type r) = true →
  has_group (rr_source r) (rr_type r) (grouped raws).
Proof.
  unfold grouped. generalize (@nil (string * list (string * list RawRecord))).
  induction raws as [|r' raws IH]; intros values Hin Hs; [by apply elem_of_nil in Hin|].
  simpl. apply elem_of_cons in Hin as [->|Hin].
  - by apply fold_group_step_has_group, group_step_new.
  - by apply IH.
Qed.

(** The rows of the groups are rows of the list. *)
Lemma defaultdict_update_inv {V} k f dflt (d : list (string * V)) k' v' :
  (k', v') ∈ defaultdict_update k f dflt d →
  (k', v') ∈ d ∨ (k' = k ∧ ∃ v, v' = f v ∧ (v = dflt ∨ (k, v) ∈ d)).
Proof.
  induction d as [|[k'' v''] d IH]; simpl.
  - intros [= -> ->]%list_elem_of_singleton. right. split; [done|]. exists dflt. auto.
  - destruct (String.eqb_spec k k'') as [<-|Hne].
    + intros [[= -> ->]|Hin]%elem_of_cons.
      * right. split; [done|]. exists v''. split; [done|]. right. apply list_elem_of_here.
      * left. by apply list_elem_of_further.
    + intros [[= -> ->]|Hin]%elem_of_cons.
      * left. apply list_elem_of_here.
      * destruct (IH Hin) as [Hd|(-> & v & -> & Hv)].
        -- left. by apply list_elem_of_further.
        -- right. split; [done|]. exists v. split; [done|].
           destruct Hv as [->|Hv]; [by left|right; by apply list_elem_of_further].
Qed.

Lemma group_step_rows raws values record :
  record ∈ raws → rows_from raws values → rows_from raws (group_step values record).
Proof.
  intros Hrec Hfrom. unfold group_step. destruct (supported (rr_type record)); [|done].
  intros name types t rs r Hn Ht Hr.
  apply defaultdict_update_inv in Hn as [Hn|(-> & types0 & -> & Htypes0)].
  - by eapply Hfrom.
  - apply defaultdict_update_inv in Ht as [Ht|(-> & rs0 & -> & Hrs0)].
    + destruct Htypes0 as [->|Htypes0]; [by apply elem_of_nil in Ht|].
      by eapply Hfrom.
    + apply elem_of_app in Hr as [Hr|Hr%list_elem_of_singleton]; [|by subst].
      destruct Hrs0 as [->|Hrs0]; [by apply elem_of_nil in Hr|].
      destruct Htypes0 as [->|Htypes0]; [by apply elem_of_nil in Hrs0|].
      by eapply Hfrom.
Qed.

Lemma grouped_rows raws name types t rs r :
  (name, types) ∈ grouped raws → (t, rs) ∈ types → r ∈ rs → r ∈ raws.
Proof.
  assert (∀ l values, (∀ x, x ∈ l → x ∈ raws) → rows_from raws values →
                      rows_from raws (fold_left group_step l values)) as Hfold.
  { induction l as [|x l IH]; intros values Hl Hfrom; simpl; [done|].
    apply IH.
    - intros y Hy. apply Hl. by apply list_elem_of_further.
    - apply group_step_rows; [apply Hl, list_elem_of_here|done]. }
  apply (Hfold raws []); [done|].
  intros ? ? ? ? ? Hin. by apply elem_of_nil in Hin.
Qed.

(** Unsupported rows leave the groups as they are. *)
Lemma grouped_filter raws :
  grouped raws = grouped (filter (λ r, supported (rr_type r) = true) raws).
Proof.
  unfold grouped. generalize (@nil (string * list (string * list RawRecord))).
  induction raws as [|r raws IH]; intros values; [done|].
  rewrite filter_cons. simpl. case_decide as Hs.
  - simpl. apply IH.
  - rewrite IH. replace (group_step values r) with values; [done|].
    unfold group_step. by destruct (supported (rr_type r)).
Qed.

Lemma skipped_cons zone_name r raws :
  skipped zone_name (r :: raws) =
  if supported (rr_type r) then skipped zone_name raws
  else SkipUnsupported (rr_type r) (rr_source r) zone_name :: skipped zone_name raws.
Proof.
  unfold skipped. rewrite filter_cons.
  destruct (supported (rr_type r)); by case_decide.
Qed.

(** The first loop of [populate] cannot raise: it builds the groups and
    logs one warning per unsupported row. *)
Lemma group_records_eq zone_name raws values w :
  group_records zone_name values raws w =
  (inr (fold_left group_step raws values),
   set_warnings (λ l, l ++ skipped zone_name raws) w).
Proof.
  revert values w. induction raws as [|r raws IH]; intros values w.
  - destruct w. unfold skipped, set_warnings. simpl. by rewrite app_nil_r.
  - simpl. unfold and_then, group_record. rewrite bool_decide_not.
    fold (supported (rr_type r)).
    rewrite skipped_cons. unfold group_step at 2.
    destruct (supported (rr_type r)) eqn:Hs; simpl.
    + unfold pure. by rewrite IH.
    + unfold modify, pure. rewrite IH.
      destruct w. unfold set_warnings. simpl. by rewrite <- app_assoc.
Qed.

(** ** Adding the records *)

Lemma apex_idemp name : apex (apex name) = apex name.
Proof. unfold apex. repeat case_bool_decide; done. Qed.

Lemma apex_not_dot name : apex name ≠ ".".
Proof. unfold apex. case_bool_decide; done. Qed.

Lemma record_for_apex zone_name name t r0 :
  record_for zone_name (apex name) t r0 = record_for zone_name name t r0.
Proof. unfold record_for. by rewrite apex_idemp. Qed.

(** The second loop of [populate] cannot raise on groups built by the
    first: it adds one record per group. *)
Lemma add_types_eq name types zone :
  types_ok types →
  add_types name types zone =
  (inr tt, {| Zone.name := Zone.name zone;
              Zone.records := Zone.records zone ++ added_types (Zone.name zone) name types |}).
Proof.
  revert name zone. induction types as [|[t rs] types IH]; intros name zone Hok.
  - destruct zone. unfold added_types. simpl. by rewrite app_nil_r.
  - apply Forall_cons in Hok as [[Hs Hrs] Hok]. simpl in Hs, Hrs.
    destruct rs as [|r0 rs]; [done|].
    simpl. unfold_monad. rewrite (supported_data_for _ Hs). simpl.
    fold (apex name). rewrite IH by done. simpl.
    unfold added_types. simpl. fold (added_types (Zone.name zone) name types).
    fold (added_types (Zone.name zone) (apex name) types).
    replace (added_types (Zone.name zone) (apex name) types)
      with (added_types (Zone.name zone) name types).
    + rewrite <- app_assoc. done.
    + unfold added_types. clear. induction types as [|[t' [|r' rs']] types IH]; simpl;
        [done|done|]. by rewrite IH, record_for_apex.
Qed.

Lemma add_groups_eq values zone :
  groups_ok values →
  add_groups values zone =
  (inr tt, {| Zone.name := Zone.name zone;
              Zone.records := Zone.records zone ++ added (Zone.name zone) values |}).
Proof.
  unfold add_groups. revert zone.
  induction values as [|[name types] values IH]; intros zone Hok.
  - destruct zone. simpl. by rewrite app_nil_r.
  - apply Forall_cons in Hok as [Htypes Hok]. simpl in Htypes.
    simpl. unfold and_then. rewrite add_types_eq by done.
    rewrite IH by done. simpl. by rewrite <- app_assoc.
Qed.

(** Every group gives a record of its type, named by [apex]. *)
Lemma added_has_group zone_name values name t :
  groups_ok values → has_group name t values →
  ∃ r0, record_for zone_name name t r0 ∈ added zone_name values.
Proof.
  intros Hok (types & rs & Hn & Ht).
  assert (types_ok types) as Htypes.
  { unfold groups_ok in Hok. rewrite Forall_forall in Hok. apply (Hok _ Hn). }
  assert (rs ≠ []) as Hrs.
  { unfold types_ok in Htypes. rewrite Forall_forall in Htypes. apply (Htypes _ Ht). }
  destruct rs as [|r0 rs]; [done|]. exists r0.
  unfold added. apply list_elem_of_In, in_flat_map.
  exists (name, types). split; [by apply list_elem_of_In|].
  unfold added_types. apply in_flat_map.
  exists (t, r0 :: rs). split; [by apply list_elem_of_In|]. simpl. by left.
Qed.

(** Every added record comes from a group. *)
Lemma added_inv zone_name values rec :
  rec ∈ added zone_name values →
  ∃ name types t r0 rs,
    (name, types) ∈ values ∧ (t, r0 :: rs) ∈ types ∧ rec = record_for zone_name name t r0.
Proof.
  unfold added. intros Hin%list_elem_of_In. apply in_flat_map in Hin as ([name types] & Hn & Hin).
  unfold added_types in Hin. apply in_flat_map in Hin as ([t rs] & Ht & Hin). simpl in *.
  destruct rs as [|r0 rs]; [done|]. destruct Hin as [<-|[]].
  exists name, types, t, r0, rs. by rewrite <- !list_elem_of_In in *.
Qed.

Lemma added_supported zone_name raws rec :
  rec ∈ added zone_name (grouped raws) → supported (Rec._type rec) = true.
Proof.
  intros (name & types & t & r0 & rs & Hn & Ht & ->)%added_inv. simpl.
  pose proof (grouped_ok raws) as Hok. unfold groups_ok in Hok.
  rewrite Forall_forall in Hok. specialize (Hok _ Hn). simpl in Hok.
  unfold types_ok in Hok. rewrite Forall_forall in Hok. by destruct (Hok _ Ht).
Qed.

Lemma added_not_dot zone_name values rec :
  rec ∈ added zone_name values → Rec.name rec ≠ ".".
Proof.
  intros (name & types & t & r0 & rs & _ & _ & ->)%added_inv. simpl. apply apex_not_dot.
Qed.

(** A supported row has a record of its type under its name. *)
Lemma added_of_row zone_name raws r :
  r ∈ raws → supported (rr_type r) = true →
  ∃ rec, rec ∈ added zone_name (grouped raws) ∧
         Rec.name rec = apex (rr_source r) ∧ Rec._type rec = rr_type r.
Proof.
  intros Hin Hs.
  destruct (added_has_group zone_name (grouped raws) (rr_source r) (rr_type r))
    as [r0 Hr0]; [apply grouped_ok|by apply grouped_has_group|].
  by exists (record_for zone_name (rr_source r) (rr_type r) r0).
Qed.

(** ** populate *)

Section Populate.

Variable net : Transport.

(** [populate] in one piece: the cache access, the groups and their
    records, and the fetch among the arguments of the closing log
    call. *)
Lemma populate_eq zone w :
  populate net zone w =
  match zone_records net (Zone.name zone) w with
  | (inl e, w1) => (inl e, zone, w1)
  | (inr raws, w1) =>
      let w2 := set_warnings (λ l, l ++ skipped (Zone.name zone) raws) w1 in
      (match classify (net (sent w1) (fetch_request (Zone.name zone))) with
       | inl e => inl e
       | inr _ => inr (bool_decide (Zone.name zone ∈ dom (_zone_records w1)))
       end,
       {| Zone.name := Zone.name zone;
          Zone.records := Zone.records zone ++ added (Zone.name zone) (grouped raws) |},
       log_request (fetch_request (Zone.name zone)) w2)
  end.
Proof.
  unfold populate, and_then.
  destruct (zone_records net (Zone.name zone) w) as [[e|raws] w1]; [done|].
  rewrite group_records_eq. fold (grouped raws).
  rewrite add_groups_eq by apply grouped_ok.
  rewrite records_eq. simpl. by destruct (classify _).
Qed.

(** On a miss, a [populate] that returns has sent two fetches: the
    cache's and the log call's. *)
Lemma populate_miss_sent zone w b zone' w' :
  _zone_records w !! Zone.name zone = None →
  populate net zone w = (inr b, zone', w') →
  sent w' = sent w ++ [fetch_request (drop_last (Zone.name zone));
                       fetch_request (Zone.name zone)].
Proof.
  intros Hmiss. rewrite populate_eq.
  pose proof (zone_records_sent net (Zone.name zone) w) as Hsent. rewrite Hmiss in Hsent.
  destruct (zone_records net (Zone.name zone) w) as [[e|raws] w1]; [done|].
  simpl in *. intros [= _ _ <-]. simpl. rewrite Hsent. by rewrite <- app_assoc.
Qed.

(** On a hit it has sent one: the log call's. *)
Lemma populate_hit_sent zone w rs :
  _zone_records w !! Zone.name zone = Some rs →
  sent (populate net zone w).2 = sent w ++ [fetch_request (Zone.name zone)].
Proof.
  intros Hhit. rewrite populate_eq. by rewrite (zone_records_hit _ _ rs).
Qed.

End Populate.

(** ** The change handlers *)

Lemma same_store_refl w : same_store w w.
Proof. done. Qed.

Lemma same_store_trans w1 w2 w3 : same_store w1 w2 → same_store w2 w3 → same_store w1 w3.
Proof. intros (? & ? & ?) (? & ? & ?). repeat split; congruence. Qed.

Section Handlers.

Variable net : Transport.

Lemma record_create_store domain_name params w :
  same_store w (record_create net domain_name params w).2.
Proof. by rewrite record_create_eq. Qed.

Lemma record_delete_store domain_name record_id w :
  same_store w (record_delete net domain_name record_id w).2.
Proof. by rewrite record_delete_eq. Qed.

(** The create loop, when it ends: one POST per parameter object, in
    order. *)
Lemma for_each_create_sent domain_name ps w w' :
  for_each (record_create net domain_name) ps w = (inr tt, w') →
  sent w' = sent w ++ (create_request domain_name <$> ps).
Proof.
  revert w. induction ps as [|p ps IH]; intros w; simpl.
  - unfold pure. intros [= <-]. by rewrite app_nil_r.
  - unfold and_then. rewrite record_create_eq.
    destruct (classify _) as [e|res]; [done|].
    intros ->%IH. simpl. by rewrite <- app_assoc.
Qed.

(** The create loop in general: the POSTs sent are those of a prefix
    of the parameter objects, the last of them the one that failed. *)
Lemma for_each_create_prefix domain_name ps w :
  ∃ n, n ≤ length ps ∧
       sent (for_each (record_create net domain_name) ps w).2
       = sent w ++ (create_request domain_name <$> take n ps).
Proof.
  revert w. induction ps as [|p ps IH]; intros w; simpl.
  - exists 0. split; [done|]. by rewrite app_nil_r.
  - unfold and_then. rewrite record_create_eq.
    destruct (classify _) as [e|res].
    + exists 1. split; [lia|]. simpl. by destruct ps.
    + destruct (IH (log_request (create_request domain_name p) w)) as (n & Hn & ->).
      exists (S n). split; [lia|]. simpl. by rewrite <- app_assoc.
Qed.

(** The create loop in full: the POSTs go out in order until one is
    answered with an error status, which is the exception raised; when
    none is, all of them are sent and the loop ends. *)
Lemma for_each_create_run domain_name ps w :
  let reqs := create_request domain_name <$> ps in
  ∃ n, sent (for_each (record_create net domain_name) ps w).2 = sent w ++ take n reqs ∧
       match (for_each (record_create net domain_name) ps w).1 with
       | inr _ =>
           n = length reqs ∧
           ∀ k req, reqs !! k = Some req → answered_ok net (sent w ++ take k reqs) req
       | inl e =>
           ∃ k req, n = S k ∧ reqs !! k = Some req ∧
                    classify (net (sent w ++ take k reqs) req) = inl e ∧
                    ∀ j reqj, j < k → reqs !! j = Some reqj →
                              answered_ok net (sent w ++ take j reqs) reqj
       end.
Proof.
  revert w. induction ps as [|p ps IH]; intros w; csimpl.
  - exists 0. split; [by rewrite app_nil_r|]. split; [done|]. by intros k req Hk.
  - unfold and_then. rewrite record_create_eq.
    destruct (classify (net (sent w) (create_request domain_name p))) as [e|res] eqn:Hcl.
    + exists 1. simpl. rewrite take_0. split; [done|].
      exists 0, (create_request domain_name p). rewrite app_nil_r.
      repeat split; [done|]. intros j reqj Hj. lia.
    + destruct (IH (log_request (create_request domain_name p) w)) as (n & Hsent & Hres).
      exists (S n). simpl in *. rewrite Hsent, <- app_assoc. split; [done|].
      destruct (for_each _ ps _).1 as [e|[]].
      * destruct Hres as (k & req & -> & Hk & Hcl' & Hbefore).
        exists (S k), req. simpl. rewrite <- app_assoc in Hcl'.
        repeat split; [done..|].
        intros [|j] reqj Hj Hreq; simpl in *.
        -- injection Hreq as <-. rewrite app_nil_r. by exists res.
        -- specialize (Hbefore j reqj ltac:(lia) Hreq).
           by rewrite <- app_assoc in Hbefore.
      * destruct Hres as (-> & Hall). split; [done|].
        intros [|k] req Hreq; simpl in *.
        -- injection Hreq as <-. rewrite app_nil_r. by exists res.
        -- specialize (Hall k req Hreq). by rewrite <- app_assoc in Hall.
Qed.

Lemma _apply_create_eq new_ w :
  _apply_create net new_ w =
  match params_of (heap w new_) with
  | inl e => (inl e, w)
  | inr ps => for_each (record_create net (drop_last (Rec.zone (heap w new_)))) ps w
  end.
Proof.
  unfold _apply_create, params_of. unfold_monad. simpl.
  destruct (_params_for _) as [e|f]; [done|]. by destruct (f _).
Qed.

Lemma _apply_create_store new_ w : same_store w (_apply_create net new_ w).2.
Proof.
  rewrite _apply_create_eq. destruct (params_of _) as [e|ps]; [done|].
  apply (for_each_preserves same_store);
    [apply same_store_refl|apply same_store_trans|intros; apply record_create_store].
Qed.

Lemma delete_matching_store existing_ zone record w :
  same_store w (delete_matching net existing_ zone record w).2.
Proof.
  unfold delete_matching. unfold_monad. simpl.
  destruct (matches _ _); [apply record_delete_store|done].
Qed.

Lemma for_each_delete_store existing_ zone raws w :
  same_store w (for_each (delete_matching net existing_ zone) raws w).2.
Proof.
  apply (for_each_preserves same_store);
    [apply same_store_refl|apply same_store_trans|intros; apply delete_matching_store].
Qed.

(** The delete loop, when it ends: one DELETE per matching row, in
    the order of the rows. *)
Lemma for_each_delete_sent existing_ zone raws w w' :
  for_each (delete_matching net existing_ zone) raws w = (inr tt, w') →
  sent w' = sent w ++
    ((λ r, delete_request (drop_last zone) (rr_id r))
       <$> filter (λ r, matches (heap w existing_) r = true) raws).
Proof.
  revert w. induction raws as [|r raws IH]; intros w; simpl.
  - unfold pure. intros [= <-]. by rewrite app_nil_r.
  - unfold and_then. rewrite filter_cons.
    pose proof (delete_matching_store existing_ zone r w) as (_ & Hheap & _).
    destruct (delete_matching net existing_ zone r w) as [[e|[]] w1] eqn:Hbody; [done|].
    intros ->%IH. simpl in Hheap. rewrite Hheap.
    revert Hbody. unfold delete_matching. unfold_monad. simpl.
    destruct (matches (heap w existing_) r) eqn:Hm.
    + rewrite record_delete_eq. destruct (classify _); [done|].
      intros [= <-]. rewrite decide_True by done. simpl. by rewrite <- app_assoc.
    + intros [= <-]. by rewrite decide_False by done.
Qed.

Lemma _apply_delete_eq existing_ w :
  _apply_delete net existing_ w =
  match zone_records net (Rec.zone (heap w existing_)) (dot_apex existing_ w) with
  | (inl e, w1) => (inl e, w1)
  | (inr raws, w1) =>
      for_each (delete_matching net existing_ (Rec.zone (heap w existing_))) raws w1
  end.
Proof.
  unfold _apply_delete, dot_apex. unfold_monad. simpl.
  destruct (bool_decide (Rec.name (heap w existing_) = "")); simpl;
    destruct (zone_records _ _ _) as [[e|raws] w1]; done.
Qed.

(** What the handlers do to the records of the changes. *)
Lemma _apply_delete_heap existing_ w :
  heap (_apply_delete net existing_ w).2 = heap (dot_apex existing_ w).
Proof.
  rewrite _apply_delete_eq.
  pose proof (zone_records_heap net (Rec.zone (heap w existing_)) (dot_apex existing_ w)) as H1.
  destruct (zone_records _ _ _) as [[e|raws] w1]; simpl in *; [done|].
  rewrite <- H1. apply for_each_delete_store.
Qed.

(** What they do to the cache: entries are added, never dropped. *)
Lemma _apply_delete_cache existing_ w :
  _zone_records w ⊆ _zone_records (_apply_delete net existing_ w).2.
Proof.
  rewrite _apply_delete_eq.
  pose proof (zone_records_cache_mono net (Rec.zone (heap w existing_))
                (dot_apex existing_ w)) as H1.
  assert (_zone_records (dot_apex existing_ w) = _zone_records w) as Hc.
  { unfold dot_apex. by case_bool_decide. }
  rewrite Hc in H1.
  destruct (zone_records _ _ _) as [[e|raws] w1]; simpl in *; [done|].
  destruct (for_each_delete_store existing_ (Rec.zone (heap w existing_)) raws w1)
    as (-> & _). done.
Qed.

Lemma apply_change_cache change w :
  _zone_records w ⊆ _zone_records (apply_change net change w).2.
Proof.
  destruct change as [new_|existing_ new_|existing_]; simpl.
  - by destruct (_apply_create_store new_ w) as (-> & _).
  - unfold _apply_update, and_then.
    pose proof (_apply_delete_cache existing_ w) as H1.
    destruct (_apply_delete net existing_ w) as [[e|[]] w1]; simpl in *; [done|].
    by destruct (_apply_create_store new_ w1) as (-> & _).
  - apply _apply_delete_cache.
Qed.

Lemma apply_change_heap change w :
  heap (apply_change net change w).2 =
  match existing_of change with
  | Some existing_ => heap (dot_apex existing_ w)
  | None => heap w
  end.
Proof.
  destruct change as [new_|existing_ new_|existing_]; simpl.
  - by destruct (_apply_create_store new_ w) as (_ & -> & _).
  - unfold _apply_update, and_then.
    pose proof (_apply_delete_heap existing_ w) as H1.
    destruct (_apply_delete net existing_ w) as [[e|[]] w1]; simpl in *; [done|].
    by destruct (_apply_create_store new_ w1) as (_ & -> & _).
  - apply _apply_delete_heap.
Qed.

End Handlers.

(** ** The cache on a failed fetch *)

(** C5, as the code has it.  On a cache miss [zone_records] sends one
    fetch and the answer's status decides: for 400 and 401, the two
    statuses the client turns into an [InfomaniakClientException], it
    returns the empty list; for any other status from 400 to 599 the
    [HTTPError] of [raise_for_status] leaves [zone_records]; for every
    other status it returns the rows of the answer. *)
Theorem C5_cache_get_by_status net zone_name w :
  _zone_records w !! zone_name = None →
  let res := net (sent w) (fetch_request (drop_last zone_name)) in
  (zone_records net zone_name w).1 =
  if decide (status_code res = 400 ∨ status_code res = 401)%Z then inr []
  else if decide (400 ≤ status_code res < 600)%Z then inl (HTTPError (status_code res))
  else inr (data res).
Proof.
  intros Hmiss res. rewrite zone_records_miss by done. simpl. fold res.
  unfold classify.
  destruct (Z.eqb_spec (status_code res) 400) as [H400|H400].
  { rewrite decide_True by tauto. done. }
  destruct (Z.eqb_spec (status_code res) 401) as [H401|H401].
  { rewrite decide_True by tauto. done. }
  rewrite decide_False by tauto.
  destruct (Z.leb_spec 400 (status_code res)); destruct (Z.ltb_spec (status_code res) 600);
    simpl; try lia; first [rewrite decide_True by lia|rewrite decide_False by lia]; done.
Qed.

Lemma C5_cache_get_by_status_witness :
  _zone_records fresh !! "example.com." = None ∧
  (zone_records (answering 401) "example.com." fresh).1 = inr [].
Proof.
  split; [vm_compute; reflexivity|].
  rewrite (C5_cache_get_by_status (answering 401) "example.com." fresh); [|vm_compute; reflexivity].
  reflexivity.
Defined.

(** C5 as stated fails: a 500 answer to the fetch of a cache miss is not
    turned into an empty list, it leaves [zone_records] as an
    [HTTPError]. *)
Lemma C5_counterexample :
  _zone_records fresh !! "example.com." = None ∧
  (zone_records (answering 500) "example.com." fresh).1 = inl (HTTPError 500).
Proof. split; vm_compute; reflexivity. Qed.

(** C10.  When the fetch of a cache miss fails with a client exception,
    [zone_records] returns the empty list and leaves the cache as it
    was, without an entry for the zone; so the next access, and any
    access in a state whose cache has no entry for the zone, sends the
    fetch again. *)
Theorem C10_failed_fetch_not_cached net zone_name w e w1 :
  _zone_records w !! zone_name = None →
  records net (drop_last zone_name) w = (inl e, w1) →
  is_InfomaniakClientException e = true →
  (zone_records net zone_name w).1 = inr [] ∧
  _zone_records (zone_records net zone_name w).2 = _zone_records w ∧
  _zone_records (zone_records net zone_name w).2 !! zone_name = None ∧
  (∀ w', _zone_records w' !! zone_name = None →
         sent (zone_records net zone_name w').2
         = sent w' ++ [fetch_request (drop_last zone_name)]).
Proof.
  intros Hmiss Hfetch Hclient. rewrite records_eq in Hfetch.
  rewrite zone_records_miss by done. simpl.
  destruct (classify _) as [e'|res]; [|done].
  injection Hfetch as -> _. rewrite Hclient. simpl.
  repeat split; [done|].
  intros w' Hmiss'. by rewrite zone_records_sent, Hmiss'.
Qed.

Lemma C10_failed_fetch_not_cached_witness :
  _zone_records fresh !! "example.com." = None ∧
  (zone_records (answering 400) "example.com." fresh).1 = inr [] ∧
  _zone_records (zone_records (answering 400) "example.com." fresh).2 = _zone_records fresh.
Proof.
  split; [vm_compute; reflexivity|].
  destruct (C10_failed_fetch_not_cached (answering 400) "example.com." fresh
              InfomaniakClientBadRequest
              (records (answering 400) "example.com" fresh).2)
    as (H1 & H2 & _); [vm_compute; reflexivity..|].
  split; [exact H1|exact H2].
Defined.

(** ** What populate returns and fetches *)

(** C3, as the code has it.  [exists] is computed after the cache
    access of the call, so a [populate] that returns gives whether the
    zone is in the cache then: true when the zone was cached before the
    call or when the fetch of the miss was answered without an error
    status, false when that fetch failed with a client exception. *)
Theorem C3_populate_returns_cached_after net zone w b zone' w' :
  populate net zone w = (inr b, zone', w') →
  b = bool_decide (Zone.name zone ∈ dom (_zone_records w')) ∧
  b = match _zone_records w !! Zone.name zone with
      | Some _ => true
      | None =>
          match (records net (drop_last (Zone.name zone)) w).1 with
          | inr _ => true
          | inl _ => false
          end
      end.
Proof.
  rewrite populate_eq, records_eq. simpl.
  destruct (_zone_records w !! Zone.name zone) as [rs|] eqn:Hc.
  - rewrite (zone_records_hit _ _ rs) by done.
    destruct (classify _); [done|]. intros [= <- _ <-]. simpl.
    split; [done|]. apply bool_decide_eq_true_2, elem_of_dom. by exists rs.
  - rewrite zone_records_miss by done. simpl.
    destruct (classify (net (sent w) (fetch_request (drop_last (Zone.name zone)))))
      as [e|res]; simpl.
    + destruct (is_InfomaniakClientException e); [|done].
      destruct (classify _); [done|]. intros [= <- _ <-]. simpl.
      split; [done|]. apply bool_decide_eq_false_2. rewrite elem_of_dom, Hc.
      by intros [? ?].
    + destruct (classify _); [done|]. intros [= <- _ <-]. simpl.
      split; [done|]. apply bool_decide_eq_true_2, elem_of_dom.
      rewrite lookup_insert_eq. by eexists.
Qed.

Lemma C3_populate_returns_cached_after_witness :
  populate ideal example_zone fresh
  = (inr true, (populate ideal example_zone fresh).1.2, (populate ideal example_zone fresh).2) ∧
  true = bool_decide ("example.com." ∈ dom (_zone_records (populate ideal example_zone fresh).2)).
Proof.
  assert (populate ideal example_zone fresh
          = (inr true, (populate ideal example_zone fresh).1.2,
             (populate ideal example_zone fresh).2)) as Hrun
    by (vm_compute; reflexivity).
  split; [exact Hrun|].
  exact (proj1 (C3_populate_returns_cached_after ideal example_zone fresh true _ _ Hrun)).
Defined.

(** C3 as stated fails: the first [populate] of a zone that is not in
    the cache returns true when its fetch succeeds. *)
Lemma C3_counterexample :
  _zone_records fresh !! Zone.name example_zone = None ∧
  (populate ideal example_zone fresh).1.1 = inr true.
Proof. split; vm_compute; reflexivity. Qed.

(** C4 at its failing input.  After [_apply] has run a plan for
    example.com. (one Create) and dropped the zone's entry, the next
    [populate] of the zone sends two fetches, not one: the one of the
    cache miss and the one among the arguments of its closing log
    call, which goes to the client past the cache. *)
Theorem C4_populate_after_apply_fetches_twice :
  _zone_records after_create !! "example.com." = None ∧
  sent (populate ideal example_zone after_create).2
  = sent after_create ++ [fetch_request "example.com"; fetch_request "example.com."] ∧
  fetch_request "example.com." = fetch_request "example.com".
Proof. repeat split; vm_compute; reflexivity. Qed.

(** C1 at its failing input.  Create of the A record www with values
    1.1.1.1 and 2.2.2.2 sends both values to a provider that keeps what
    it is sent; the [populate] that follows gives www back with the
    first value only, since [_data_for_generic] reads [records[0]]
    alone. *)
Theorem C1_create_then_populate_keeps_first_value :
  heap fresh 0 = www_A ∧
  Rec.data www_A = Rec.Values ["1.1.1.1"; "2.2.2.2"] ∧
  _zone_records (populate ideal example_zone after_create).2 !! "example.com."
  = Some [ {| rr_id := "0"; rr_source := "www"; rr_type := "A"; rr_ttl := 300;
              rr_target := "1.1.1.1" |};
           {| rr_id := "1"; rr_source := "www"; rr_type := "A"; rr_ttl := 300;
              rr_target := "2.2.2.2" |} ] ∧
  (populate ideal example_zone after_create).1
  = (inr true,
     {| Zone.name := "example.com.";
        Zone.records := [ {| Rec.zone := "example.com."; Rec.name := "www";
                             Rec._type := "A"; Rec.ttl := 300;
                             Rec.data := Rec.Values ["1.1.1.1"] |} ] |}).
Proof. repeat split; vm_compute; reflexivity. Qed.

(** ** apply *)

Section Apply.

Variable net : Transport.

(** When every handler returns, the entry of the plan's zone is gone. *)
Lemma _apply_ok_invalidates plan w w' :
  _apply net plan w = (inr tt, w') → _zone_records w' !! desired plan = None.
Proof.
  unfold _apply, and_then, modify.
  destruct (for_each _ _ _) as [[e|[]] w1]; [done|].
  intros [= <-]. simpl. apply lookup_delete_eq.
Qed.

Lemma for_each_apply_change_cache cs w :
  _zone_records w ⊆ _zone_records (for_each (apply_change net) cs w).2.
Proof.
  apply (for_each_preserves (λ s s', _zone_records s ⊆ _zone_records s')).
  - done.
  - intros s1 s2 s3 H12 H23. by etrans.
  - intros c s. apply apply_change_cache.
Qed.

End Apply.

(** C2, as the code has it.  [_apply] has no handler around its loop:
    when a change handler raises, the exception leaves [_apply] at that
    change.  The changes before it were applied, the ones after it are
    not attempted, and the statement that drops the zone's cache entry
    is not reached: every entry the cache held when [_apply] began is
    still there, unchanged. *)
Theorem C2_apply_failure_keeps_cache net plan w e w' :
  _apply net plan w = (inl e, w') →
  (∃ pre change post w1,
     changes plan = pre ++ change :: post ∧
     for_each (apply_change net) pre w = (inr tt, w1) ∧
     apply_change net change w1 = (inl e, w')) ∧
  _zone_records w ⊆ _zone_records w'.
Proof.
  unfold _apply, and_then, modify. intros Hrun.
  pose proof (for_each_apply_change_cache net (changes plan) w) as Hcache.
  destruct (for_each (apply_change net) (changes plan) w) as [[e1|[]] w1] eqn:Hloop; [|done].
  injection Hrun as -> ->. split; [|done].
  by apply for_each_inl.
Qed.

Lemma C2_apply_failure_keeps_cache_witness :
  _apply refusing_post mixed_plan cached
  = (inl InfomaniakClientBadRequest, (_apply refusing_post mixed_plan cached).2) ∧
  _zone_records cached ⊆ _zone_records (_apply refusing_post mixed_plan cached).2.
Proof.
  assert (_apply refusing_post mixed_plan cached
          = (inl InfomaniakClientBadRequest, (_apply refusing_post mixed_plan cached).2))
    as Hrun by (vm_compute; reflexivity).
  split; [exact Hrun|].
  exact (proj2 (C2_apply_failure_keeps_cache refusing_post mixed_plan cached _ _ Hrun)).
Defined.

(** C2 as stated fails: the POST of a Create is answered 400, [_apply]
    raises, and the entry of example.com. is still in the cache. *)
Lemma C2_counterexample :
  (_apply refusing_post cname_plan cached).1 = inl InfomaniakClientBadRequest ∧
  _zone_records (_apply refusing_post cname_plan cached).2 !! desired cname_plan
  = Some [apex_row; mx_row; www_row].
Proof. split; vm_compute; reflexivity. Qed.

(** C6, as the code has it.  A handler changes the records of its
    change in one way only: the delete half of Delete and Update
    renames an existing record whose name is empty to ".", in place.
    Create changes nothing, and no handler changes the zone, the type,
    the TTL or the values of any record. *)
Theorem C6_handlers_rename_apex_only net change w :
  heap (apply_change net change w).2 =
  match existing_of change with
  | Some existing_ =>
      if bool_decide (Rec.name (heap w existing_) = "")
      then heap_update existing_ (Rec.set_name ".") (heap w)
      else heap w
  | None => heap w
  end
  ∧ ∀ l, let r := heap w l in
         let r' := heap (apply_change net change w).2 l in
         Rec.zone r' = Rec.zone r ∧ Rec._type r' = Rec._type r ∧
         Rec.ttl r' = Rec.ttl r ∧ Rec.data r' = Rec.data r ∧
         (Rec.name r' = Rec.name r ∨
          (existing_of change = Some l ∧ Rec.name r = "" ∧ Rec.name r' = ".")).
Proof.
  rewrite apply_change_heap.
  destruct (existing_of change) as [existing_|] eqn:Hex.
  - unfold dot_apex. case_bool_decide as Hname; simpl.
    + split; [done|]. intros l. unfold heap_update.
      destruct (Nat.eqb_spec existing_ l) as [->|Hne]; simpl; repeat split; auto.
    + split; [done|]. intros l. repeat split; auto.
  - split; [done|]. intros l. repeat split; auto.
Qed.

(** C6 as stated fails: Delete of the apex record (reference 1, name
    empty) leaves that record named ".". *)
Lemma C6_counterexample :
  Rec.name (heap fresh 1) = "" ∧
  Rec.name (heap (apply_change (ideal_from example_rows) (Delete 1) fresh).2 1) = ".".
Proof. split; vm_compute; reflexivity. Qed.

(** ** The records populate adds *)

Lemma populated_eq net zone w raws w1 :
  zone_records net (Zone.name zone) w = (inr raws, w1) →
  populated net zone w = added (Zone.name zone) (grouped raws).
Proof.
  intros Hget. unfold populated. rewrite populate_eq, Hget. simpl.
  apply drop_app_length.
Qed.

Lemma populate_warnings net zone w raws w1 :
  zone_records net (Zone.name zone) w = (inr raws, w1) →
  warnings (populate net zone w).2 = warnings w ++ skipped (Zone.name zone) raws.
Proof.
  intros Hget. rewrite populate_eq.
  pose proof (zone_records_warnings net (Zone.name zone) w) as Hw.
  rewrite Hget in *. simpl in *. by rewrite Hw.
Qed.

(** No record [populate] adds has more than one value: the data of a
    group is built from its first row. *)
Lemma populated_one_value net zone w raws w1 rec :
  zone_records net (Zone.name zone) w = (inr raws, w1) →
  rec ∈ populated net zone w →
  ∃ r0, r0 ∈ raws ∧
        (Rec.data rec = Rec.Values [rr_target r0] ∨ Rec.data rec = Rec.Value (rr_target r0)).
Proof.
  intros Hget. rewrite (populated_eq _ _ _ _ _ Hget).
  intros (name & types & t & r0 & rs & Hn & Ht & ->)%added_inv.
  exists r0. split.
  - eapply grouped_rows; [exact Hn|exact Ht|apply list_elem_of_here].
  - unfold record_for. simpl. case_bool_decide; [by left|by right].
Qed.

(** The cache access does not read the records of the changes. *)
Lemma zone_records_set_heap net zone_name f w :
  zone_records net zone_name (set_heap f w) =
  ((zone_records net zone_name w).1, set_heap f (zone_records net zone_name w).2).
Proof.
  destruct (_zone_records w !! zone_name) as [rs|] eqn:Hc.
  - by rewrite !(zone_records_hit _ _ rs).
  - rewrite !zone_records_miss by done. simpl.
    destruct (classify _) as [e|res]; done.
Qed.

(** C9.  Let [raws] be the rows the cache access of [populate] returns.
    Every record the call adds has a supported type, so a row of
    another type has none; the records added are the ones that would be
    added were those rows absent, and each supported row has its
    record; one warning is logged per unsupported row; and the only
    exception that can leave the call after the cache access is the one
    of the fetch in its closing log call, whatever the rows are. *)
Theorem C9_unsupported_rows_skipped net zone w raws w1 :
  zone_records net (Zone.name zone) w = (inr raws, w1) →
  (∀ rec, rec ∈ populated net zone w → supported (Rec._type rec) = true) ∧
  populated net zone w
  = added (Zone.name zone) (grouped (filter (λ r, supported (rr_type r) = true) raws)) ∧
  (∀ r, r ∈ raws → supported (rr_type r) = true →
        ∃ rec, rec ∈ populated net zone w ∧
               Rec.name rec = apex (rr_source r) ∧ Rec._type rec = rr_type r) ∧
  warnings (populate net zone w).2
  = warnings w ++ ((λ r, SkipUnsupported (rr_type r) (rr_source r) (Zone.name zone))
                     <$> filter (λ r, supported (rr_type r) = false) raws) ∧
  (∀ e, (populate net zone w).1.1 = inl e →
        (records net (Zone.name zone) w1).1 = inl e).
Proof.
  intros Hget. rewrite (populated_eq _ _ _ _ _ Hget).
  split; [intros rec; apply added_supported|].
  split; [by rewrite <- grouped_filter|].
  split; [intros r; apply added_of_row|].
  split; [exact (populate_warnings _ _ _ _ _ Hget)|].
  intros e. rewrite populate_eq, Hget, records_eq. simpl.
  destruct (classify _); [by intros [= ->]|done].
Qed.

Lemma C9_unsupported_rows_skipped_witness :
  zone_records (ideal_from example_rows) "example.com." fresh
  = (inr [apex_row; mx_row; www_row],
     (zone_records (ideal_from example_rows) "example.com." fresh).2) ∧
  warnings (populate (ideal_from example_rows) example_zone fresh).2
  = [SkipUnsupported "MX" "." "example.com."].
Proof.
  assert (zone_records (ideal_from example_rows) (Zone.name example_zone) fresh
          = (inr [apex_row; mx_row; www_row],
             (zone_records (ideal_from example_rows) "example.com." fresh).2)) as Hget
    by (vm_compute; reflexivity).
  split; [exact Hget|].
  destruct (C9_unsupported_rows_skipped (ideal_from example_rows) example_zone fresh _ _ Hget)
    as (_ & _ & _ & Hwarn & _).
  rewrite Hwarn. vm_compute. reflexivity.
Defined.

(** C7.  Populate: a row of a supported type whose source is "." gets a
    record of its type named "", and no record that [populate] adds is
    named ".".  Delete: for an existing record named "", a handler that
    returns has sent, after the cache access, one DELETE for each row
    the cache access returned whose source is "." and whose type is the
    record's, in the order of the rows, and no other request. *)
Theorem C7_apex_translation net zone w raws w1 r existing_ wd wd' :
  zone_records net (Zone.name zone) w = (inr raws, w1) →
  r ∈ raws → rr_source r = "." → supported (rr_type r) = true →
  Rec.name (heap wd existing_) = "" →
  _apply_delete net existing_ wd = (inr tt, wd') →
  (∃ rec, rec ∈ populated net zone w ∧ Rec.name rec = "" ∧ Rec._type rec = rr_type r) ∧
  (∀ rec, rec ∈ populated net zone w → Rec.name rec ≠ ".") ∧
  (∃ rows wd1,
     zone_records net (Rec.zone (heap wd existing_)) wd = (inr rows, wd1) ∧
     sent wd' = sent wd1 ++
       ((λ row, delete_request (drop_last (Rec.zone (heap wd existing_))) (rr_id row))
          <$> filter (λ row, rr_source row = "." ∧ rr_type row = Rec._type (heap wd existing_))
                rows)).
Proof.
  intros Hget Hr Hsrc Hs Hname Hdel.
  rewrite (populated_eq _ _ _ _ _ Hget).
  split; [|split].
  - destruct (added_of_row (Zone.name zone) raws r Hr Hs) as (rec & Hin & Hn & Ht).
    exists rec. rewrite Hsrc in Hn. done.
  - intros rec. apply added_not_dot.
  - rewrite _apply_delete_eq in Hdel. unfold dot_apex in Hdel.
    rewrite bool_decide_eq_true_2 in Hdel by done.
    rewrite zone_records_set_heap in Hdel.
    destruct (zone_records net (Rec.zone (heap wd existing_)) wd) as [[e|rows] wd1] eqn:Hrows;
      simpl in Hdel; [done|].
    exists rows, wd1. split; [done|].
    apply for_each_delete_sent in Hdel. rewrite Hdel. simpl.
    pose proof (zone_records_heap net (Rec.zone (heap wd existing_)) wd) as Hheap.
    rewrite Hrows in Hheap. simpl in Hheap. rewrite Hheap.
    unfold heap_update. rewrite Nat.eqb_refl. do 2 f_equal.
    apply list_filter_iff. intros row. unfold matches. simpl.
    rewrite andb_true_iff, !bool_decide_eq_true.
    split; intros [Hsource Htype]; split; congruence.
Qed.

Lemma C7_apex_translation_witness :
  sent (_apply_delete (ideal_from example_rows) 1 fresh).2
  = [fetch_request "example.com"; delete_request "example.com" "7"] ∧
  ∃ rec, rec ∈ populated (ideal_from example_rows) example_zone fresh ∧
         Rec.name rec = "" ∧ Rec._type rec = "A".
Proof.
  destruct (C7_apex_translation (ideal_from example_rows) example_zone fresh
              [apex_row; mx_row; www_row]
              (zone_records (ideal_from example_rows) "example.com." fresh).2
              apex_row 1 fresh (_apply_delete (ideal_from example_rows) 1 fresh).2)
    as (Hpop & _ & _).
  - vm_compute; reflexivity.
  - apply list_elem_of_here.
  - reflexivity.
  - vm_compute; reflexivity.
  - reflexivity.
  - vm_compute; reflexivity.
  - split; [vm_compute; reflexivity|exact Hpop].
Defined.

(** ** Expansion and Create *)

Lemma _params_for_CNAME : _params_for "CNAME" = inr _params_for_generic.
Proof. vm_compute. reflexivity. Qed.

(** C8.  For a record as octoDNS builds it (values for A and AAAA, a
    value for CNAME) the parameter objects are: for A and AAAA one per
    value, in the order of the values, each with that value as target
    and the record's name, TTL and type; for CNAME exactly one.  The
    Create handler sends one POST per parameter object, in that order,
    and nothing else, until a POST is answered with an error status:
    when none is, it has sent them all and returns; otherwise it raises
    the exception of the first POST so answered, having sent the POSTs
    up to and including that one. *)
Theorem C8_one_create_per_parameter_object net new_ w :
  well_formed (heap w new_) = true →
  let new := heap w new_ in
  let ps := match Rec.data new with
            | Rec.Values vs => param new <$> vs
            | Rec.Value v => [param new v]
            end in
  let reqs := create_request (drop_last (Rec.zone new)) <$> ps in
  params_of new = inr ps ∧
  length ps = match Rec.data new with
              | Rec.Values vs => length vs
              | Rec.Value _ => 1
              end ∧
  ∃ n, sent (_apply_create net new_ w).2 = sent w ++ take n reqs ∧
       match (_apply_create net new_ w).1 with
       | inr _ =>
           n = length reqs ∧
           ∀ k req, reqs !! k = Some req → answered_ok net (sent w ++ take k reqs) req
       | inl e =>
           ∃ k req, n = S k ∧ reqs !! k = Some req ∧
                    classify (net (sent w ++ take k reqs) req) = inl e ∧
                    ∀ j reqj, j < k → reqs !! j = Some reqj →
                              answered_ok net (sent w ++ take j reqs) reqj
       end.
Proof.
  intros Hwf new ps reqs. fold new in Hwf.
  assert (params_of new = inr ps) as Hparams.
  { unfold well_formed in Hwf. unfold params_of, ps.
    destruct (Rec.data new) as [vs|v] eqn:Hdata.
    - apply bool_decide_eq_true in Hwf. unfold _params_for.
      rewrite bool_decide_eq_true_2.
      + unfold _params_for_multiple, Rec.values. by rewrite Hdata.
      + rewrite !elem_of_cons in *. tauto.
    - apply bool_decide_eq_true in Hwf. rewrite Hwf, _params_for_CNAME.
      unfold _params_for_generic, Rec.value. by rewrite Hdata. }
  split; [exact Hparams|]. split.
  - unfold ps. destruct (Rec.data new); [by rewrite length_fmap|done].
  - rewrite _apply_create_eq. fold new. rewrite Hparams.
    apply for_each_create_run.
Qed.

Lemma C8_one_create_per_parameter_object_witness :
  well_formed (heap fresh 0) = true ∧
  _apply_create ideal 0 fresh = (inr tt, (_apply_create ideal 0 fresh).2) ∧
  sent (_apply_create ideal 0 fresh).2
  = [ create_request "example.com"
        {| p_target := "1.1.1.1"; p_source := "www"; p_ttl := 300; p_type := "A" |};
      create_request "example.com"
        {| p_target := "2.2.2.2"; p_source := "www"; p_ttl := 300; p_type := "A" |} ].
Proof.
  split; [reflexivity|].
  assert (_apply_create ideal 0 fresh = (inr tt, (_apply_create ideal 0 fresh).2)) as Hrun
    by (vm_compute; reflexivity).
  split; [exact Hrun|].
  destruct (C8_one_create_per_parameter_object ideal 0 fresh eq_refl) as (_ & _ & n & Hsent & Hres).
  rewrite Hrun in Hres. simpl in Hres. destruct Hres as [-> _].
  rewrite Hsent. reflexivity.
Defined.

(** ** The groups, exactly *)

Lemma defaultdict_update_keys {V} k f dflt (d : list (string * V)) :
  (defaultdict_update k f dflt d).*1 = if decide (k ∈ d.*1) then d.*1 else d.*1 ++ [k].
Proof.
  induction d as [|[k' v] d IH]; csimpl.
  - done.
  - destruct (String.eqb_spec k k') as [<-|Hne]; csimpl.
    + rewrite decide_True; [done|]. apply list_elem_of_here.
    + rewrite IH. destruct (decide (k ∈ d.*1)) as [Hin|Hnin].
      * rewrite decide_True; [done|]. by apply list_elem_of_further.
      * rewrite decide_False; [done|]. rewrite elem_of_cons. tauto.
Qed.

Lemma defaultdict_update_NoDup {V} k f dflt (d : list (string * V)) :
  NoDup d.*1 → NoDup (defaultdict_update k f dflt d).*1.
Proof.
  intros Hd. rewrite defaultdict_update_keys. case_decide as Hin; [done|].
  apply NoDup_app. split; [done|]. split; [|apply NoDup_singleton].
  intros x Hx ->%list_elem_of_singleton. done.
Qed.

Lemma defaultdict_update_transform {V} (P Q : string * V → Prop) k f dflt
    (d : list (string * V)) :
  NoDup d.*1 → Forall P d →
  (∀ k' v, k' ≠ k → P (k', v) → Q (k', v)) →
  (∀ v, P (k, v) → Q (k, f v)) →
  (k ∉ d.*1 → Q (k, f dflt)) →
  Forall Q (defaultdict_update k f dflt d).
Proof.
  intros Hnd HP Hother Hf Hnew. induction d as [|[k' v] d IH]; simpl.
  - constructor; [|constructor]. apply Hnew, not_elem_of_nil.
  - apply NoDup_cons in Hnd as [Hk' Hnd]. apply Forall_cons in HP as [Hhead HP].
    destruct (String.eqb_spec k k') as [<-|Hne].
    + constructor; [by apply Hf|].
      rewrite Forall_forall in HP. apply Forall_forall. intros [k2 v2] Hin.
      apply Hother; [|by apply HP]. intros ->. apply Hk'.
      by apply (list_elem_of_fmap_2 fst) in Hin.
    + constructor; [apply Hother; [done|done]|].
      apply IH; [done|done|]. intros Hnin. apply Hnew. simpl.
      rewrite elem_of_cons. tauto.
Qed.

Lemma NoDup_fst_eq {A B} (l : list (A * B)) x y1 y2 :
  NoDup l.*1 → (x, y1) ∈ l → (x, y2) ∈ l → y1 = y2.
Proof.
  induction l as [|[x' y'] l IH]; csimpl.
  - intros _ Hin. by apply elem_of_nil in Hin.
  - intros [Hx' Hnd]%NoDup_cons [[= -> ->]|H1]%elem_of_cons [[= ->]|H2]%elem_of_cons.
    + done.
    + exfalso. apply Hx'. by apply (list_elem_of_fmap_2 fst) in H2.
    + subst. exfalso. apply Hx'. by apply (list_elem_of_fmap_2 fst) in H1.
    + by apply IH.
Qed.

Lemma rows_of_snoc name t raws r :
  rows_of name t (raws ++ [r]) =
  rows_of name t raws ++ (if decide (rr_source r = name ∧ rr_type r = t) then [r] else []).
Proof.
  unfold rows_of. by rewrite filter_app.
Qed.

Lemma grouped_snoc raws r : grouped (raws ++ [r]) = group_step (grouped raws) r.
Proof. unfold grouped. by rewrite fold_left_app. Qed.

Lemma rows_of_nil_no_group raws name t :
  supported t = true → ¬ has_group name t (grouped raws) → rows_of name t raws = [].
Proof.
  intros Hs Hno. destruct (rows_of name t raws) as [|r0 rest] eqn:Hrows; [done|].
  exfalso. apply Hno.
  assert (r0 ∈ rows_of name t raws) as Hin by (rewrite Hrows; apply list_elem_of_here).
  apply list_elem_of_filter in Hin as [[<- <-] Hin].
  by apply grouped_has_group.
Qed.

Lemma grouped_exact raws : groups_exact raws (grouped raws).
Proof.
  induction raws as [|r raws IH] using rev_ind.
  - split; [apply NoDup_nil_2|constructor].
  - rewrite grouped_snoc. destruct IH as [Hnd Hall]. unfold group_step.
    destruct (supported (rr_type r)) eqn:Hs.
    + split; [by apply defaultdict_update_NoDup|].
      apply (defaultdict_update_transform
               (λ nt, (nt.1, nt.2) ∈ grouped raws ∧ types_exact raws nt.1 nt.2)); [done| | | |].
      * rewrite Forall_forall in Hall. apply Forall_forall. intros [n types] Hin.
        simpl. split; [exact Hin|]. apply (Hall _ Hin).
      * intros n types Hne [_ [Hndt Htypes]]. simpl in *. split; [done|].
        eapply Forall_impl; [exact Htypes|]. intros [t rs] (? & ? & Heq). simpl in *. subst rs.
        repeat split; [done..|]. rewrite rows_of_snoc, decide_False, app_nil_r; [done|].
        intros [? _]. done.
      * intros types [Hin [Hndt Htypes]]. simpl in *.
        split; [by apply defaultdict_update_NoDup|].
        apply (defaultdict_update_transform
                 (λ tr, (tr.1, tr.2) ∈ types ∧ supported tr.1 = true ∧ tr.2 ≠ []
                        ∧ tr.2 = rows_of (rr_source r) tr.1 raws)); [done| | | |].
        -- rewrite Forall_forall in Htypes. apply Forall_forall. intros [t rs] Ht.
           simpl. split; [done|]. apply (Htypes _ Ht).
        -- intros t rs Hne (_ & ? & ? & Heq). simpl in *. subst rs. repeat split; [done..|].
           rewrite rows_of_snoc, decide_False, app_nil_r; [done|]. intros [_ ?]. done.
        -- intros rs (_ & ? & ? & Heq). simpl in *. subst rs. repeat split; [done|by destruct (rows_of _ _ _)|].
           by rewrite rows_of_snoc, decide_True.
        -- intros Hnew. simpl. repeat split; [done..|].
           rewrite rows_of_snoc, decide_True by done.
           rewrite rows_of_nil_no_group; [done|done|].
           intros (types2 & rs2 & Hn2 & Ht2).
           assert (types2 = types) as -> by (by eapply NoDup_fst_eq).
           apply Hnew. by apply (list_elem_of_fmap_2 fst) in Ht2.
      * intros Hnew. simpl. split; [apply NoDup_singleton|].
        constructor; [|constructor]. simpl. repeat split; [done..|].
        rewrite rows_of_snoc, decide_True by done.
        rewrite rows_of_nil_no_group; [done|done|].
        intros (types2 & rs2 & Hn2 & _). apply Hnew.
        by apply (list_elem_of_fmap_2 fst) in Hn2.
    + split; [done|]. eapply Forall_impl; [exact Hall|]. intros [n types] [Hndt Htypes].
      split; [done|]. simpl in *. eapply Forall_impl; [exact Htypes|].
      intros [t rs] (Ht & ? & Heq). simpl in *. subst rs. repeat split; [done..|].
      rewrite rows_of_snoc, decide_False, app_nil_r; [done|].
      intros [_ Heq]. rewrite Heq in Hs. congruence.
Qed.

Lemma rows_of_head raws n t r0 rest :
  rows_of n t raws = r0 :: rest → r0 ∈ raws ∧ rr_source r0 = n ∧ rr_type r0 = t.
Proof.
  intros Hrows.
  assert (r0 ∈ rows_of n t raws) as Hin by (rewrite Hrows; apply list_elem_of_here).
  apply list_elem_of_filter in Hin as [[? ?] ?]. done.
Qed.

Lemma grouped_group_rows raws n types t rs :
  (n, types) ∈ grouped raws → (t, rs) ∈ types →
  supported t = true ∧ rs ≠ [] ∧ rs = rows_of n t raws.
Proof.
  intros Hn Ht. destruct (grouped_exact raws) as [_ Hall].
  rewrite Forall_forall in Hall. destruct (Hall _ Hn) as [_ Htypes]. simpl in Htypes.
  rewrite Forall_forall in Htypes. apply (Htypes _ Ht).
Qed.

Lemma added_iff zone_name raws rec :
  rec ∈ added zone_name (grouped raws) ↔
  ∃ n t r0 rest,
    supported t = true ∧ rows_of n t raws = r0 :: rest ∧ rec = record_for zone_name n t r0.
Proof.
  split.
  - intros (n & types & t & r0 & rs & Hn & Ht & ->)%added_inv.
    destruct (grouped_group_rows _ _ _ _ _ Hn Ht) as (Hs & _ & Hrows).
    by exists n, t, r0, rs.
  - intros (n & t & r0 & rest & Hs & Hrows & ->).
    destruct (rows_of_head _ _ _ _ _ Hrows) as (Hin & <- & <-).
    destruct (grouped_has_group raws r0 Hin Hs) as (types & rs & Hn & Ht).
    destruct (grouped_group_rows _ _ _ _ _ Hn Ht) as (_ & _ & ->).
    rewrite Hrows in Ht.
    unfold added. apply list_elem_of_In, in_flat_map.
    exists (rr_source r0, types). split; [by apply list_elem_of_In|].
    unfold added_types. apply in_flat_map.
    exists (rr_type r0, r0 :: rest). split; [by apply list_elem_of_In|]. simpl. by left.
Qed.

Lemma added_types_keys zone_name n types :
  types_ok types →
  key_of <$> added_types zone_name n types = (λ t, (apex n, t)) <$> types.*1.
Proof.
  unfold added_types. induction 1 as [|[t rs] types [_ Hrs] _ IH]; [done|].
  simpl in Hrs. destruct rs as [|r0 rs]; [done|]. csimpl. by rewrite IH.
Qed.

Lemma added_keys zone_name values :
  groups_ok values →
  key_of <$> added zone_name values = (λ k, (apex k.1, k.2)) <$> group_keys values.
Proof.
  induction 1 as [|[n types] values Hok _ IH]; [done|].
  unfold added, group_keys in *. csimpl. rewrite !fmap_app, IH. f_equal.
  rewrite added_types_keys by done. rewrite <- !list_fmap_compose.
  by apply list_fmap_ext.
Qed.

Lemma group_keys_elem raws k :
  k ∈ group_keys (grouped raws) ↔
  ∃ r, r ∈ raws ∧ supported (rr_type r) = true ∧ k = row_key r.
Proof.
  unfold group_keys. rewrite list_elem_of_In, in_flat_map. split.
  - intros ([n types] & Hn%list_elem_of_In & Hk%list_elem_of_In). simpl in Hk.
    apply list_elem_of_fmap in Hk as ([t rs] & -> & Ht). simpl.
    destruct (grouped_group_rows _ _ _ _ _ Hn Ht) as (Hs & Hne & ->).
    destruct (rows_of n t raws) as [|r0 rest] eqn:Hrows; [done|].
    destruct (rows_of_head _ _ _ _ _ Hrows) as (Hin & <- & <-). by exists r0.
  - intros (r & Hin & Hs & ->).
    destruct (grouped_has_group raws r Hin Hs) as (types & rs & Hn & Ht).
    exists (rr_source r, types). split; [by apply list_elem_of_In|].
    apply list_elem_of_In. simpl. by apply (list_elem_of_fmap_2' _ _ (rr_type r, rs)).
Qed.

Lemma group_keys_NoDup_of (values : Groups) :
  NoDup values.*1 → Forall (λ nt, NoDup nt.2.*1) values → NoDup (group_keys values).
Proof.
  unfold group_keys. induction values as [|[n types] values IH]; csimpl.
  - intros _ _. apply NoDup_nil_2.
  - intros [Hn Hnd]%NoDup_cons [Htypes Hall]%Forall_cons. simpl in Htypes.
    apply NoDup_app. split; [|split; [|by apply IH]].
    + apply NoDup_fmap_2_strong; [|by apply (NoDup_fmap_1 fst)].
      intros [t1 rs1] [t2 rs2] H1 H2 [= ->]. f_equal. by eapply NoDup_fst_eq.
    + intros [n' t] Hin1 Hin2.
      apply list_elem_of_fmap in Hin1 as ([t' rs'] & [= -> ->] & _).
      apply list_elem_of_In, in_flat_map in Hin2 as ([n2 types2] & Hn2 & Hk).
      apply list_elem_of_In in Hn2, Hk. simpl in Hk.
      apply list_elem_of_fmap in Hk as ([t2 rs2] & [= -> ->] & _).
      apply Hn. by apply (list_elem_of_fmap_2 fst) in Hn2.
Qed.

Lemma group_keys_NoDup raws : NoDup (group_keys (grouped raws)).
Proof.
  destruct (grouped_exact raws) as [Hnd Hall]. apply group_keys_NoDup_of; [done|].
  eapply Forall_impl; [exact Hall|]. by intros [n types] [? _].
Qed.

(** The records one [populate] adds are exactly these: for each source
    and supported type that some row has, one record built from the
    first row of that source and type in the order the rows were
    returned; its TTL and its one value are that row's, whatever the
    later rows of the group say. *)
Theorem populate_first_row_wins net zone w raws w1 rec :
  zone_records net (Zone.name zone) w = (inr raws, w1) →
  rec ∈ populated net zone w ↔
  ∃ n t r0 rest,
    supported t = true ∧
    filter (λ r, rr_source r = n ∧ rr_type r = t) raws = r0 :: rest ∧
    rec = {| Rec.zone := Zone.name zone; Rec.name := if bool_decide (n = ".") then "" else n;
             Rec._type := t; Rec.ttl := rr_ttl r0;
             Rec.data := if bool_decide (t ∈ ["A"; "AAAA"])
                         then Rec.Values [rr_target r0] else Rec.Value (rr_target r0) |}.
Proof.
  intros Hget. rewrite (populated_eq _ _ _ _ _ Hget). apply added_iff.
Qed.

Lemma populate_first_row_wins_witness :
  zone_records (ideal_from example_rows) "example.com." fresh
  = (inr [apex_row; mx_row; www_row],
     (zone_records (ideal_from example_rows) "example.com." fresh).2) ∧
  {| Rec.zone := "example.com."; Rec.name := ""; Rec._type := "A"; Rec.ttl := 300;
     Rec.data := Rec.Values ["1.1.1.1"] |}
  ∈ populated (ideal_from example_rows) example_zone fresh.
Proof.
  assert (zone_records (ideal_from example_rows) (Zone.name example_zone) fresh
          = (inr [apex_row; mx_row; www_row],
             (zone_records (ideal_from example_rows) "example.com." fresh).2)) as Hget
    by (vm_compute; reflexivity).
  split; [exact Hget|].
  apply (populate_first_row_wins _ _ _ _ _ _ Hget).
  exists ".", "A", apex_row, []. repeat split; vm_compute; reflexivity.
Defined.

Lemma fmap_NoDup_inj {A B} (f : A → B) (l : list A) x y :
  NoDup (f <$> l) → x ∈ l → y ∈ l → f x = f y → x = y.
Proof.
  induction l as [|a l IH]; csimpl.
  - intros _ Hx. by apply elem_of_nil in Hx.
  - intros [Ha Hnd]%NoDup_cons [->|Hx]%elem_of_cons [->|Hy]%elem_of_cons Hf.
    + done.
    + exfalso. apply Ha. rewrite Hf. by apply list_elem_of_fmap_2.
    + exfalso. apply Ha. rewrite <- Hf. by apply list_elem_of_fmap_2.
    + by apply IH.
Qed.

Lemma populated_keys net zone w raws w1 :
  zone_records net (Zone.name zone) w = (inr raws, w1) →
  key_of <$> populated net zone w
  ≡ₚ (λ k, (apex k.1, k.2))
       <$> remove_dups (row_key <$> filter (λ r, supported (rr_type r) = true) raws).
Proof.
  intros Hget. rewrite (populated_eq _ _ _ _ _ Hget).
  rewrite added_keys by apply grouped_ok. apply fmap_Permutation.
  apply NoDup_Permutation; [apply group_keys_NoDup|apply NoDup_remove_dups|].
  intros k. rewrite group_keys_elem, elem_of_remove_dups, list_elem_of_fmap.
  split.
  - intros (r & Hin & Hs & ->). exists r. split; [done|]. by apply list_elem_of_filter.
  - intros (r & -> & [Hs Hin]%list_elem_of_filter). by exists r.
Qed.

(** [populate] adds one record for each distinct pair of source and type
    among the rows of supported types: as many records as there are
    such pairs. *)
Theorem populate_one_record_per_pair net zone w raws w1 :
  zone_records net (Zone.name zone) w = (inr raws, w1) →
  length (populated net zone w)
  = length (remove_dups (row_key <$> filter (λ r, supported (rr_type r) = true) raws)).
Proof.
  intros Hget. pose proof (populated_keys _ _ _ _ _ Hget) as Hperm.
  apply Permutation_length in Hperm. by rewrite !length_fmap in Hperm.
Qed.

Lemma populate_one_record_per_pair_witness :
  zone_records (ideal_from example_rows) "example.com." fresh
  = (inr [apex_row; mx_row; www_row],
     (zone_records (ideal_from example_rows) "example.com." fresh).2) ∧
  length (populated (ideal_from example_rows) example_zone fresh) = 2.
Proof.
  assert (zone_records (ideal_from example_rows) (Zone.name example_zone) fresh
          = (inr [apex_row; mx_row; www_row],
             (zone_records (ideal_from example_rows) "example.com." fresh).2)) as Hget
    by (vm_compute; reflexivity).
  split; [exact Hget|].
  rewrite (populate_one_record_per_pair _ _ _ _ _ Hget). vm_compute. reflexivity.
Defined.

(** The records one [populate] adds have pairwise different names and
    types, except in one case: when the rows hold a "." row and a row
    with the empty source of the same supported type, two records named
    "" of that type are added. *)
Theorem populate_duplicates_iff net zone w raws w1 :
  zone_records net (Zone.name zone) w = (inr raws, w1) →
  NoDup (key_of <$> populated net zone w) ↔
  ¬ ∃ r1 r2, r1 ∈ raws ∧ r2 ∈ raws ∧ rr_source r1 = "." ∧ rr_source r2 = "" ∧
             rr_type r1 = rr_type r2 ∧ supported (rr_type r1) = true.
Proof.
  intros Hget. rewrite (populated_keys _ _ _ _ _ Hget).
  set (keys := remove_dups _).
  assert (∀ k, k ∈ keys ↔ ∃ r, r ∈ raws ∧ supported (rr_type r) = true ∧ k = row_key r)
    as Hkeys.
  { intros k. unfold keys. rewrite elem_of_remove_dups, list_elem_of_fmap. split.
    - intros (r & -> & [Hs Hin]%list_elem_of_filter). by exists r.
    - intros (r & Hin & Hs & ->). exists r. split; [done|]. by apply list_elem_of_filter. }
  split.
  - intros Hnd (r1 & r2 & H1 & H2 & Hs1 & Hs2 & Ht & Hsup).
    assert (row_key r1 = row_key r2) as Heq.
    { apply (fmap_NoDup_inj _ _ _ _ Hnd).
      - apply Hkeys. by exists r1.
      - apply Hkeys. exists r2. by rewrite <- Ht.
      - unfold row_key. simpl. rewrite Hs1, Hs2, Ht. done. }
    unfold row_key in Heq. rewrite Hs1, Hs2 in Heq. done.
  - intros Hno. apply NoDup_fmap_2_strong; [|apply NoDup_remove_dups].
    intros [n1 t1] [n2 t2] (r1 & Hr1 & Hsup1 & [= -> ->])%Hkeys
           (r2 & Hr2 & Hsup2 & [= -> ->])%Hkeys [= Hn Ht].
    f_equal; [|done]. unfold apex in Hn.
    repeat case_bool_decide; try congruence.
    + subst. exfalso. apply Hno. by exists r1, r2.
    + subst. exfalso. apply Hno. exists r2, r1. rewrite <- Ht. done.
Qed.

Lemma populate_duplicates_iff_witness :
  zone_records (ideal_from colliding_rows) "example.com." fresh
  = (inr [apex_row; empty_source_row],
     (zone_records (ideal_from colliding_rows) "example.com." fresh).2) ∧
  ¬ NoDup (key_of <$> populated (ideal_from colliding_rows) example_zone fresh).
Proof.
  assert (zone_records (ideal_from colliding_rows) (Zone.name example_zone) fresh
          = (inr [apex_row; empty_source_row],
             (zone_records (ideal_from colliding_rows) "example.com." fresh).2)) as Hget
    by (vm_compute; reflexivity).
  split; [exact Hget|].
  intros Hnd. apply (populate_duplicates_iff _ _ _ _ _ Hget) in Hnd. apply Hnd.
  exists apex_row, empty_source_row.
  repeat split; try reflexivity;
    [apply list_elem_of_here|apply list_elem_of_further, list_elem_of_here].
Defined.

(** ** The requests of the handlers *)

Lemma sent_more_refl P w : sent_more P w w.
Proof. exists []. split; [by rewrite app_nil_r|constructor]. Qed.

Lemma sent_more_trans P w1 w2 w3 :
  sent_more P w1 w2 → sent_more P w2 w3 → sent_more P w1 w3.
Proof.
  intros (n1 & H1 & F1) (n2 & H2 & F2). exists (n1 ++ n2).
  split; [by rewrite H2, H1, app_assoc|by apply Forall_app].
Qed.

Lemma sent_more_impl (P Q : Request → Prop) w w' :
  (∀ r, P r → Q r) → sent_more P w w' → sent_more Q w w'.
Proof.
  intros HPQ (new & Hs & HF). exists new. split; [done|]. by eapply Forall_impl.
Qed.

Section Requests.
Variable net : Transport.

Lemma zone_records_gets zone_name w :
  sent_more (λ r, method r = GET) w (zone_records net zone_name w).2.
Proof.
  unfold sent_more. rewrite zone_records_sent.
  destruct (_zone_records w !! zone_name).
  - exists []. split; [by rewrite app_nil_r|constructor].
  - eexists. split; [done|]. by repeat constructor.
Qed.

Lemma _apply_create_posts new_ w :
  sent_more (λ r, method r = POST) w (_apply_create net new_ w).2.
Proof.
  rewrite _apply_create_eq. destruct (params_of _) as [e|ps]; [apply sent_more_refl|].
  apply (for_each_preserves (sent_more (λ r, method r = POST)));
    [apply sent_more_refl|apply sent_more_trans|].
  intros p s. rewrite record_create_eq. simpl.
  eexists. split; [done|]. by repeat constructor.
Qed.

Lemma for_each_delete_deletes existing_ zone raws w :
  sent_more (λ r, method r = DELETE) w
    (for_each (delete_matching net existing_ zone) raws w).2.
Proof.
  apply (for_each_preserves (sent_more (λ r, method r = DELETE)));
    [apply sent_more_refl|apply sent_more_trans|].
  intros r s. unfold delete_matching. unfold_monad. simpl.
  destruct (matches _ _); [|apply sent_more_refl].
  rewrite record_delete_eq. simpl. eexists. split; [done|]. by repeat constructor.
Qed.

Lemma _apply_delete_no_post existing_ w :
  sent_more (λ r, method r ≠ POST) w (_apply_delete net existing_ w).2.
Proof.
  rewrite _apply_delete_eq.
  pose proof (zone_records_gets (Rec.zone (heap w existing_)) (dot_apex existing_ w)) as Hget.
  assert (sent (dot_apex existing_ w) = sent w) as Hs by (unfold dot_apex; by case_bool_decide).
  destruct (zone_records _ _ _) as [[e|raws] w1]; simpl in *.
  - destruct Hget as (new & Hnew & HF). exists new. rewrite Hnew, Hs. split; [done|].
    eapply Forall_impl; [exact HF|]. by intros r ->.
  - eapply sent_more_trans.
    + destruct Hget as (new & Hnew & HF). exists new. rewrite Hnew, Hs. split; [done|].
      eapply Forall_impl; [exact HF|]. by intros r ->.
    + eapply sent_more_impl; [|apply for_each_delete_deletes]. by intros r ->.
Qed.

End Requests.

(** Update sends the requests of its delete half first, none of them a
    POST, and after them the POSTs of its create half.  When the delete
    half raises, Update raises the same exception and no POST is sent;
    when it returns, Update ends as the Create handler run in the state
    the delete half left, its POSTs are that run's, and an Update that
    returns has sent one POST per parameter object of the new record. *)
Theorem update_deletes_then_creates net existing_ new_ w :
  ∃ ds ps,
    sent (_apply_update net existing_ new_ w).2 = sent w ++ ds ++ ps ∧
    sent (_apply_delete net existing_ w).2 = sent w ++ ds ∧
    Forall (λ r, method r ≠ POST) ds ∧
    Forall (λ r, method r = POST) ps ∧
    match (_apply_delete net existing_ w).1 with
    | inl e => ps = [] ∧ (_apply_update net existing_ new_ w).1 = inl e
    | inr _ =>
        let w1 := (_apply_delete net existing_ w).2 in
        (_apply_update net existing_ new_ w).1 = (_apply_create net new_ w1).1 ∧
        sent (_apply_create net new_ w1).2 = sent w1 ++ ps ∧
        (∀ params,
           (_apply_update net existing_ new_ w).1 = inr tt →
           params_of (heap w1 new_) = inr params →
           ps = create_request (drop_last (Rec.zone (heap w1 new_))) <$> params)
    end.
Proof.
  destruct (_apply_delete_no_post net existing_ w) as (ds & Hds & Fds).
  unfold _apply_update, and_then.
  destruct (_apply_delete net existing_ w) as [[e|[]] w1] eqn:Hdel; simpl in *.
  - exists ds, []. rewrite app_nil_r. repeat split; done.
  - destruct (_apply_create_posts net new_ w1) as (ps & Hps & Fps).
    exists ds, ps. rewrite Hps, Hds, app_assoc. repeat split; try done.
    intros params Hok Hparams.
    destruct (_apply_create net new_ w1) as [[e|[]] w2] eqn:Hcreate; [done|].
    rewrite _apply_create_eq, Hparams in Hcreate.
    apply for_each_create_sent in Hcreate. simpl in Hps.
    rewrite Hcreate in Hps. by apply app_inv_head in Hps.
Qed.

(** When every handler returns, [_apply] leaves no cache entry for the
    plan's zone and keeps the entries of every other zone, so the next
    cache access for the plan's zone sends a fetch. *)
Theorem apply_success_invalidates net plan w w' :
  _apply net plan w = (inr tt, w') →
  _zone_records w' !! desired plan = None ∧
  (∀ zone_name rs, zone_name ≠ desired plan →
                   _zone_records w !! zone_name = Some rs →
                   _zone_records w' !! zone_name = Some rs) ∧
  sent (zone_records net (desired plan) w').2
  = sent w' ++ [fetch_request (drop_last (desired plan))].
Proof.
  intros Hrun. pose proof (_apply_ok_invalidates _ _ _ _ Hrun) as Hgone.
  split; [done|]. split.
  - revert Hrun. unfold _apply, and_then, modify.
    pose proof (for_each_apply_change_cache net (changes plan) w) as Hmono.
    destruct (for_each _ _ _) as [[e|[]] w1]; [done|]. intros [= <-].
    intros z rs Hne Hz. simpl in *. rewrite lookup_delete_ne by done.
    by eapply lookup_weaken.
  - by rewrite zone_records_sent, Hgone.
Qed.

Lemma apply_success_invalidates_witness :
  _apply (ideal_from example_rows) mixed_plan cached
  = (inr tt, (_apply (ideal_from example_rows) mixed_plan cached).2) ∧
  _zone_records (_apply (ideal_from example_rows) mixed_plan cached).2 !! "example.com." = None.
Proof.
  assert (_apply (ideal_from example_rows) mixed_plan cached
          = (inr tt, (_apply (ideal_from example_rows) mixed_plan cached).2)) as Hrun
    by (vm_compute; reflexivity).
  split; [exact Hrun|].
  exact (proj1 (apply_success_invalidates _ _ _ _ Hrun)).
Defined.

Lemma dot_apex_heap existing_ w :
  heap (dot_apex existing_ w) existing_
  = Rec.set_name (delete_source (heap w existing_)) (heap w existing_).
Proof.
  unfold dot_apex, delete_source. case_bool_decide as Hname; simpl.
  - unfold heap_update. by rewrite Nat.eqb_refl.
  - by destruct (heap w existing_).
Qed.

Lemma zone_records_dot_apex net zone_name existing_ w :
  zone_records net zone_name (dot_apex existing_ w) =
  ((zone_records net zone_name w).1,
   dot_apex existing_ (zone_records net zone_name w).2).
Proof.
  unfold dot_apex. rewrite (zone_records_heap net zone_name w).
  case_bool_decide; [apply zone_records_set_heap|by destruct (zone_records _ _ _)].
Qed.

Lemma _apply_delete_sent net existing_ w w' :
  _apply_delete net existing_ w = (inr tt, w') →
  ∃ rows w1,
    zone_records net (Rec.zone (heap w existing_)) w = (inr rows, w1) ∧
    sent w' = sent w1 ++
      ((λ row, delete_request (drop_last (Rec.zone (heap w existing_))) (rr_id row))
         <$> filter (λ row, rr_source row = delete_source (heap w existing_)
                            ∧ rr_type row = Rec._type (heap w existing_)) rows).
Proof.
  rewrite _apply_delete_eq, zone_records_dot_apex.
  destruct (zone_records net (Rec.zone (heap w existing_)) w) as [[e|rows] w1] eqn:Hrows;
    simpl; [done|].
  intros Hloop. exists rows, w1. split; [done|].
  apply for_each_delete_sent in Hloop. rewrite Hloop.
  assert (sent (dot_apex existing_ w1) = sent w1) as -> by (unfold dot_apex; by case_bool_decide).
  pose proof (zone_records_heap net (Rec.zone (heap w existing_)) w) as Hheap.
  rewrite Hrows in Hheap. simpl in Hheap.
  rewrite dot_apex_heap, Hheap. do 2 f_equal.
  apply list_filter_iff. intros row. unfold matches. simpl.
  rewrite andb_true_iff, !bool_decide_eq_true.
  split; intros [Hsource Htype]; split; congruence.
Qed.

(** A Delete handler that returns has sent, after its cache access, one
    DELETE for each row the access returned whose type is the record's
    and whose source is the record's name ("." for the empty name), in
    the order of the rows, and nothing else. *)
Theorem delete_sends_matching_rows net existing_ w w' :
  _apply_delete net existing_ w = (inr tt, w') →
  ∃ rows w1,
    zone_records net (Rec.zone (heap w existing_)) w = (inr rows, w1) ∧
    sent w' = sent w1 ++
      ((λ row, delete_request (drop_last (Rec.zone (heap w existing_))) (rr_id row))
         <$> filter (λ row, rr_source row = delete_source (heap w existing_)
                            ∧ rr_type row = Rec._type (heap w existing_)) rows).
Proof. apply _apply_delete_sent. Qed.

Lemma delete_sends_matching_rows_witness :
  _apply_delete (ideal_from example_rows) 0 cached
  = (inr tt, (_apply_delete (ideal_from example_rows) 0 cached).2) ∧
  sent (_apply_delete (ideal_from example_rows) 0 cached).2
  = [delete_request "example.com" "9"].
Proof.
  assert (_apply_delete (ideal_from example_rows) 0 cached
          = (inr tt, (_apply_delete (ideal_from example_rows) 0 cached).2)) as Hrun
    by (vm_compute; reflexivity).
  split; [exact Hrun|].
  destruct (delete_sends_matching_rows _ _ _ _ Hrun) as (rows & w1 & Hget & Hsent).
  rewrite Hsent. revert Hget. vm_compute. intros [= <- <-]. reflexivity.
Defined.

(** When the zone is not cached and the fetch fails with a client
    exception, the Delete handler returns normally: it has sent the
    fetch and no DELETE, and nothing is cached. *)
Theorem delete_after_failed_fetch_is_silent net existing_ w e w1 :
  _zone_records w !! Rec.zone (heap w existing_) = None →
  records net (drop_last (Rec.zone (heap w existing_))) w = (inl e, w1) →
  is_InfomaniakClientException e = true →
  (_apply_delete net existing_ w).1 = inr tt ∧
  sent (_apply_delete net existing_ w).2
  = sent w ++ [fetch_request (drop_last (Rec.zone (heap w existing_)))] ∧
  _zone_records (_apply_delete net existing_ w).2 = _zone_records w.
Proof.
  intros Hmiss Hfetch Hclient. rewrite records_eq in Hfetch.
  rewrite _apply_delete_eq, zone_records_dot_apex, zone_records_miss by done. simpl.
  destruct (classify _) as [e'|res]; [|done]. injection Hfetch as -> _.
  rewrite Hclient. simpl. unfold pure, dot_apex. by case_bool_decide.
Qed.

Lemma delete_after_failed_fetch_is_silent_witness :
  _zone_records fresh !! Rec.zone (heap fresh 1) = None ∧
  (_apply_delete (answering 401) 1 fresh).1 = inr tt.
Proof.
  split; [vm_compute; reflexivity|].
  refine (proj1 (delete_after_failed_fetch_is_silent (answering 401) 1 fresh
                   InfomaniakClientUnauthorized
                   (records (answering 401) "example.com" fresh).2 _ _ _));
    vm_compute; reflexivity.
Defined.

(** Create of a record whose type has no [_params_for_*] attribute
    raises [AttributeError] before any request is sent; the state is
    untouched. *)
Theorem create_unknown_type_raises net new_ w :
  Rec._type (heap w new_) ∉ ["A"; "AAAA"; "CNAME"; "generic"; "multiple"] →
  _apply_create net new_ w
  = (inl (AttributeError ("_params_for_" +:+ Rec._type (heap w new_))), w).
Proof.
  intros Ht. rewrite _apply_create_eq. unfold params_of, _params_for.
  rewrite !bool_decide_eq_false_2; [done| |].
  - intros Hin. apply Ht. rewrite !elem_of_cons in *. tauto.
  - intros Hin. apply Ht. rewrite !elem_of_cons in *. tauto.
Qed.

Lemma create_unknown_type_raises_witness :
  (Rec._type (heap fresh_mx 0) ∉ ["A"; "AAAA"; "CNAME"; "generic"; "multiple"]) ∧
  _apply_create ideal 0 fresh_mx = (inl (AttributeError "_params_for_MX"), fresh_mx).
Proof.
  assert (Rec._type (heap fresh_mx 0) ∉ ["A"; "AAAA"; "CNAME"; "generic"; "multiple"]) as Ht.
  { rewrite !elem_of_cons, elem_of_nil. simpl. intuition discriminate. }
  split; [exact Ht|].
  exact (create_unknown_type_raises ideal 0 fresh_mx Ht).
Defined.

(** ** The client again *)

(** [rstrip] and [[:-1]] on a name that ends with the stripped character. *)
Lemma rstrip_snoc ch s : rstrip ch (s +:+ String ch EmptyString) = rstrip ch s.
Proof.
  induction s as [|c s IH]; simpl.
  - by rewrite Ascii.eqb_refl.
  - by rewrite IH.
Qed.

Lemma rstrip_idemp ch s : rstrip ch (rstrip ch s) = rstrip ch s.
Proof.
  induction s as [|c s IH]; simpl; [done|].
  destruct (rstrip ch s) as [|c' t] eqn:Hr.
  - destruct (Ascii.eqb c ch) eqn:Hc; simpl; [done|]. by rewrite Hc.
  - simpl in *. by rewrite IH.
Qed.

Lemma drop_last_snoc s c : drop_last (s +:+ String c EmptyString) = s.
Proof.
  induction s as [|c' s IH]; simpl; [done|].
  rewrite IH. by destruct s.
Qed.

(** [records] strips trailing dots from the domain name, so it sends the
    same request with or without them; for a zone name that ends with a
    dot, the fetch of the cache ([zone.name[:-1]]) and the fetch of the
    log call of [populate] ([zone.name]) are the same request. *)
Theorem records_ignores_trailing_dots net domain_name w :
  records net (domain_name +:+ ".") w = records net domain_name w ∧
  records net (rstrip "."%char domain_name) w = records net domain_name w ∧
  fetch_request (drop_last (domain_name +:+ ".")) = fetch_request (domain_name +:+ ".").
Proof.
  rewrite !records_eq. unfold fetch_request.
  change (domain_name +:+ ".") with (domain_name +:+ String "."%char EmptyString).
  by rewrite drop_last_snoc, rstrip_snoc, rstrip_idemp.
Qed.

(** ** populate and the provider *)

(** [populate] sends at most two requests, both GET without a body; it
    leaves the records of the changes alone, drops no cache entry,
    keeps the zone's name and only appends to the zone's records. *)
Theorem populate_only_fetches net zone w :
  (∃ new, sent (populate net zone w).2 = sent w ++ new ∧
          Forall (λ r, method r = GET ∧ json r = None) new ∧ length new ≤ 2) ∧
  heap (populate net zone w).2 = heap w ∧
  _zone_records w ⊆ _zone_records (populate net zone w).2 ∧
  Zone.name (populate net zone w).1.2 = Zone.name zone ∧
  Zone.records zone `prefix_of` Zone.records (populate net zone w).1.2.
Proof.
  rewrite populate_eq.
  pose proof (zone_records_sent net (Zone.name zone) w) as Hsent.
  pose proof (zone_records_heap net (Zone.name zone) w) as Hheap.
  pose proof (zone_records_cache_mono net (Zone.name zone) w) as Hcache.
  destruct (zone_records net (Zone.name zone) w) as [[e|raws] w1]; simpl in *.
  - repeat split; [|done..].
    destruct (_zone_records w !! Zone.name zone).
    + exists []. rewrite Hsent, app_nil_r. repeat split; [constructor|simpl; lia].
    + eexists. split; [exact Hsent|]. split; [by repeat constructor|simpl; lia].
  - repeat split; [|done|done|by eexists].
    destruct (_zone_records w !! Zone.name zone).
    + eexists. rewrite Hsent. split; [done|]. split; [by repeat constructor|simpl; lia].
    + eexists. rewrite Hsent, <- app_assoc. split; [done|].
      split; [by repeat constructor|simpl; lia].
Qed.

(** When the cache access of [populate] raises, the zone was not cached
    and the exception is the [HTTPError] of a status from 400 to 599
    other than 400 and 401; [populate] raises it with the zone as it
    was given, one fetch sent, nothing cached and no warning logged. *)
Theorem populate_fetch_error_leaves_zone net zone w e :
  (zone_records net (Zone.name zone) w).1 = inl e →
  populate net zone w
  = (inl e, zone, log_request (fetch_request (drop_last (Zone.name zone))) w) ∧
  _zone_records w !! Zone.name zone = None ∧
  ∃ status, e = HTTPError status ∧ (400 ≤ status < 600)%Z ∧ status ≠ 400%Z ∧ status ≠ 401%Z.
Proof.
  rewrite populate_eq.
  destruct (_zone_records w !! Zone.name zone) as [rs|] eqn:Hc.
  { by rewrite (zone_records_hit _ _ rs). }
  rewrite zone_records_miss by done. simpl. unfold classify.
  set (res := net (sent w) (fetch_request (drop_last (Zone.name zone)))).
  destruct (Z.eqb_spec (status_code res) 400); [done|].
  destruct (Z.eqb_spec (status_code res) 401); [done|].
  destruct (Z.leb_spec 400 (status_code res)); destruct (Z.ltb_spec (status_code res) 600);
    simpl; try done.
  intros [= <-]. split; [done|]. split; [done|].
  exists (status_code res). repeat split; done.
Qed.

Lemma populate_fetch_error_leaves_zone_witness :
  (zone_records (answering 500) (Zone.name example_zone) fresh).1 = inl (HTTPError 500) ∧
  (populate (answering 500) example_zone fresh).1 = (inl (HTTPError 500), example_zone).
Proof.
  assert ((zone_records (answering 500) (Zone.name example_zone) fresh).1
          = inl (HTTPError 500)) as Hget by (vm_compute; reflexivity).
  split; [exact Hget|].
  by rewrite (proj1 (populate_fetch_error_leaves_zone _ _ _ _ Hget)).
Defined.

(** When the zone is not cached and the provider answers both fetches
    of [populate] with an error, the first of them a client exception
    that the cache turns into no rows, [populate] raises the second
    fetch's exception, with the zone as it was given and the cache as
    it was. *)
Theorem populate_raises_when_fetch_keeps_failing net zone w e w1 e' w2 :
  _zone_records w !! Zone.name zone = None →
  records net (drop_last (Zone.name zone)) w = (inl e, w1) →
  is_InfomaniakClientException e = true →
  records net (Zone.name zone) w1 = (inl e', w2) →
  populate net zone w = (inl e', zone, w2) ∧ _zone_records w2 = _zone_records w.
Proof.
  intros Hmiss H1 Hclient H2. rewrite populate_eq, zone_records_miss by done. simpl.
  rewrite records_eq in H1. destruct (classify _) as [e1|res]; [|done].
  injection H1 as -> <-. rewrite Hclient.
  rewrite records_eq in H2. simpl in H2.
  destruct (classify _) as [e2|res]; [|done]. injection H2 as -> <-.
  destruct zone, w. unfold log_request, set_warnings, set_sent, skipped. simpl.
  by rewrite !app_nil_r.
Qed.

Lemma populate_raises_when_fetch_keeps_failing_witness :
  _zone_records fresh !! Zone.name example_zone = None ∧
  (populate (answering 400) example_zone fresh).1
  = (inl InfomaniakClientBadRequest, example_zone).
Proof.
  split; [vm_compute; reflexivity|].
  rewrite (proj1 (populate_raises_when_fetch_keeps_failing (answering 400) example_zone fresh
                    InfomaniakClientBadRequest
                    (records (answering 400) "example.com" fresh).2
                    InfomaniakClientBadRequest
                    (records (answering 400) "example.com."
                       (records (answering 400) "example.com" fresh).2).2
                    ltac:(vm_compute; reflexivity) ltac:(vm_compute; reflexivity)
                    ltac:(reflexivity) ltac:(vm_compute; reflexivity))).
  reflexivity.
Defined.

(** ** From Create to populate and to Delete *)

Lemma params_of_well_formed record :
  well_formed record = true →
  params_of record
  = inr (match Rec.data record with
         | Rec.Values vs => param record <$> vs
         | Rec.Value v => [param record v]
         end).
Proof.
  unfold well_formed, params_of. destruct (Rec.data record) as [vs|v] eqn:Hdata.
  - intros Ht%bool_decide_eq_true. unfold _params_for.
    rewrite bool_decide_eq_true_2.
    + unfold _params_for_multiple, Rec.values. by rewrite Hdata.
    + rewrite !elem_of_cons in *. tauto.
  - intros Ht%bool_decide_eq_true. rewrite Ht, _params_for_CNAME.
    unfold _params_for_generic, Rec.value. by rewrite Hdata.
Qed.

Lemma well_formed_supported record :
  well_formed record = true → supported (Rec._type record) = true.
Proof.
  unfold well_formed. rewrite supported_cases.
  destruct (Rec.data record); intros Ht%bool_decide_eq_true.
  - rewrite !elem_of_cons in Ht. rewrite elem_of_nil in Ht. tauto.
  - tauto.
Qed.

Lemma fold_group_step_same_key n t acc rows :
  supported t = true →
  Forall (λ r, rr_source r = n ∧ rr_type r = t) rows →
  fold_left group_step rows [(n, [(t, acc)])] = [(n, [(t, acc ++ rows)])].
Proof.
  intros Hs Hall. revert acc. induction Hall as [|r rows [Hn Ht] _ IH]; intros acc; simpl.
  - by rewrite app_nil_r.
  - unfold group_step at 2. rewrite Hn, Ht, Hs. simpl. rewrite !String.eqb_refl.
    rewrite IH. by rewrite <- app_assoc.
Qed.

Lemma grouped_same_key n t r0 rows :
  supported t = true →
  Forall (λ r, rr_source r = n ∧ rr_type r = t) (r0 :: rows) →
  grouped (r0 :: rows) = [(n, [(t, r0 :: rows)])].
Proof.
  intros Hs [[Hn Ht] Hall]%Forall_cons. unfold grouped. simpl.
  unfold group_step at 2. rewrite Hn, Ht, Hs. simpl.
  by rewrite fold_group_step_same_key.
Qed.

(** The one group of the rows of a record's parameter objects. *)
Lemma added_of_create_rows zone_name record ps ids :
  well_formed record = true →
  params_of record = inr ps →
  ps ≠ [] →
  length ids = length ps →
  added zone_name (grouped (zip_with row_of ids ps))
  = [ {| Rec.zone := zone_name; Rec.name := apex (Rec.name record);
         Rec._type := Rec._type record; Rec.ttl := Rec.ttl record;
         Rec.data := match Rec.data record with
                     | Rec.Values vs => Rec.Values (take 1 vs)
                     | Rec.Value v => Rec.Value v
                     end |} ].
Proof.
  intros Hwf Hps Hne Hlen. rewrite (params_of_well_formed _ Hwf) in Hps.
  injection Hps as <-.
  pose proof (well_formed_supported _ Hwf) as Hs.
  assert (Forall (λ r, rr_source r = Rec.name record ∧ rr_type r = Rec._type record)
            (zip_with row_of ids
               match Rec.data record with
               | Rec.Values vs => param record <$> vs
               | Rec.Value v => [param record v]
               end)) as Hall.
  { apply Forall_forall. intros r Hr.
    apply elem_of_lookup_zip_with in Hr as (i & id & p & -> & _ & Hp).
    apply list_elem_of_lookup_2 in Hp.
    destruct (Rec.data record).
    - apply list_elem_of_fmap in Hp as (v & -> & _). done.
    - apply list_elem_of_singleton in Hp as ->. done. }
  unfold well_formed in Hwf.
  destruct (Rec.data record) as [[|v vs]|v] eqn:Hdata; [done| |].
  - destruct ids as [|id ids]; [done|]. csimpl in *.
    rewrite (grouped_same_key (Rec.name record) (Rec._type record)) by done.
    unfold added, added_types, record_for. simpl. by rewrite Hwf.
  - destruct ids as [|id [|? ?]]; [done| |done]. csimpl in *.
    rewrite (grouped_same_key (Rec.name record) (Rec._type record)) by done.
    unfold added, added_types, record_for. simpl.
    apply bool_decide_eq_true in Hwf. rewrite Hwf. done.
Qed.

(** When the rows the cache access returns are the parameter objects of
    a record as they were sent, each kept under an id, [populate] adds
    one record: the record's type and TTL, its name with "." turned
    into "", and its first value only.  A CNAME comes back whole, an A
    or AAAA record loses every value after the first. *)
Theorem create_rows_populate_first_value net zone w record ps ids w1 :
  well_formed record = true →
  params_of record = inr ps →
  ps ≠ [] →
  length ids = length ps →
  zone_records net (Zone.name zone) w = (inr (zip_with row_of ids ps), w1) →
  populated net zone w
  = [ {| Rec.zone := Zone.name zone;
         Rec.name := if bool_decide (Rec.name record = ".") then "" else Rec.name record;
         Rec._type := Rec._type record; Rec.ttl := Rec.ttl record;
         Rec.data := match Rec.data record with
                     | Rec.Values vs => Rec.Values (take 1 vs)
                     | Rec.Value v => Rec.Value v
                     end |} ].
Proof.
  intros Hwf Hps Hne Hlen Hget. rewrite (populated_eq _ _ _ _ _ Hget).
  by apply added_of_create_rows.
Qed.

Lemma create_rows_populate_first_value_witness :
  zone_records ideal "example.com." after_create
  = (inr (zip_with row_of ["0"; "1"] (param www_A <$> ["1.1.1.1"; "2.2.2.2"])),
     (zone_records ideal "example.com." after_create).2) ∧
  populated ideal example_zone after_create
  = [ {| Rec.zone := "example.com."; Rec.name := "www"; Rec._type := "A"; Rec.ttl := 300;
         Rec.data := Rec.Values ["1.1.1.1"] |} ].
Proof.
  assert (zone_records ideal (Zone.name example_zone) after_create
          = (inr (zip_with row_of ["0"; "1"] (param www_A <$> ["1.1.1.1"; "2.2.2.2"])),
             (zone_records ideal "example.com." after_create).2)) as Hget
    by (vm_compute; reflexivity).
  split; [exact Hget|].
  exact (create_rows_populate_first_value ideal example_zone after_create www_A _ ["0"; "1"] _
           eq_refl eq_refl ltac:(discriminate) eq_refl Hget).
Defined.

(** The handlers do not refresh the cache: with the zone cached, a
    Delete that returns leaves the cache as it was, and a second Delete
    of the same record sends the same DELETEs again. *)
Theorem delete_again_resends net existing_ w rows w' w'' :
  _zone_records w !! Rec.zone (heap w existing_) = Some rows →
  _apply_delete net existing_ w = (inr tt, w') →
  _apply_delete net existing_ w' = (inr tt, w'') →
  _zone_records w' = _zone_records w ∧
  ∃ ds, sent w' = sent w ++ ds ∧ sent w'' = sent w' ++ ds ∧
        Forall (λ r, method r = DELETE) ds.
Proof.
  intros Hhit Hd1 Hd2.
  assert (_zone_records w' = _zone_records w ∧ heap w' = heap (dot_apex existing_ w))
    as [Hcache Hheap].
  { pose proof (_apply_delete_heap net existing_ w) as Hh. rewrite Hd1 in Hh.
    split; [|done]. revert Hd1. rewrite _apply_delete_eq, zone_records_dot_apex.
    rewrite (zone_records_hit _ _ rows) by done. simpl. intros Hloop.
    destruct (for_each_delete_store net existing_ (Rec.zone (heap w existing_)) rows
                (dot_apex existing_ w)) as (Hc & _).
    rewrite Hloop in Hc. simpl in Hc. rewrite Hc. unfold dot_apex. by case_bool_decide. }
  split; [done|].
  assert (heap w' existing_
          = Rec.set_name (delete_source (heap w existing_)) (heap w existing_)) as Hrec
    by (by rewrite Hheap, dot_apex_heap).
  apply _apply_delete_sent in Hd1 as (rows1 & w1 & Hget1 & Hs1).
  apply _apply_delete_sent in Hd2 as (rows2 & w2 & Hget2 & Hs2).
  rewrite (zone_records_hit _ _ rows) in Hget1 by done. injection Hget1 as <- <-.
  rewrite Hrec in Hget2, Hs2. simpl in Hget2, Hs2.
  rewrite (zone_records_hit _ _ rows) in Hget2 by (by rewrite Hcache).
  injection Hget2 as <- <-.
  assert (delete_source (Rec.set_name (delete_source (heap w existing_)) (heap w existing_))
          = delete_source (heap w existing_)) as Hsrc.
  { unfold delete_source. simpl. by repeat case_bool_decide. }
  rewrite Hsrc in Hs2.
  eexists. split; [exact Hs1|]. split; [exact Hs2|].
  apply Forall_fmap, Forall_forall. done.
Qed.

Lemma delete_again_resends_witness :
  _zone_records cached !! Rec.zone (heap cached 1) = Some [apex_row; mx_row; www_row] ∧
  sent (_apply_delete (ideal_from example_rows) 1
          (_apply_delete (ideal_from example_rows) 1 cached).2).2
  = [delete_request "example.com" "7"; delete_request "example.com" "7"].
Proof.
  assert (_zone_records cached !! Rec.zone (heap cached 1)
          = Some [apex_row; mx_row; www_row]) as Hhit by (vm_compute; reflexivity).
  split; [exact Hhit|].
  destruct (delete_again_resends (ideal_from example_rows) 1 cached _
              (_apply_delete (ideal_from example_rows) 1 cached).2
              (_apply_delete (ideal_from example_rows) 1
                 (_apply_delete (ideal_from example_rows) 1 cached).2).2 Hhit)
    as (_ & ds & _ & _ & _); [vm_compute; reflexivity..|].
  vm_compute. reflexivity.
Defined.

Lemma params_of_fields record ps :
  params_of record = inr ps →
  Forall (λ p, p_source p = Rec.name record ∧ p_type p = Rec._type record
               ∧ p_ttl p = Rec.ttl record) ps.
Proof.
  unfold params_of, _params_for. repeat case_bool_decide; [| |done].
  - unfold _params_for_multiple. destruct (Rec.values record) as [e|vs]; [done|].
    intros [= <-]. apply Forall_fmap, Forall_forall. done.
  - unfold _params_for_generic. destruct (Rec.value record) as [e|v]; [done|].
    intros [= <-]. by repeat constructor.
Qed.

(** The test of the delete loop on the rows of a record's parameter
    objects. *)
Lemma delete_test_on_create_rows record ps ids :
  params_of record = inr ps →
  filter (λ row, rr_source row = delete_source record ∧ rr_type row = Rec._type record)
    (zip_with row_of ids ps)
  = if bool_decide (Rec.name record = "") then [] else zip_with row_of ids ps.
Proof.
  intros Hall%params_of_fields. revert ids.
  induction Hall as [|p ps (Hsrc & Ht & _) _ IH]; intros ids.
  - destruct ids; simpl; by case_bool_decide.
  - destruct ids as [|id ids]; [simpl; by case_bool_decide|].
    csimpl. rewrite filter_cons, IH. simpl. rewrite Hsrc, Ht. unfold delete_source.
    case_bool_decide as Hname.
    + rewrite decide_False; [done|]. rewrite Hname. by intros [? _].
    + by rewrite decide_True.
Qed.

(** Create sends the record's name as source and Delete looks for "."
    when the name is empty.  So when the rows the cache access returns
    are the parameter objects of the record itself as they were sent, a
    Delete handler that returns has sent one DELETE per row when the
    record's name is not empty, and none at all when it is. *)
Theorem create_rows_matched_by_delete net existing_ w ps ids w1 w' :
  params_of (heap w existing_) = inr ps →
  zone_records net (Rec.zone (heap w existing_)) w = (inr (zip_with row_of ids ps), w1) →
  _apply_delete net existing_ w = (inr tt, w') →
  sent w' = sent w1 ++
    (if bool_decide (Rec.name (heap w existing_) = "") then []
     else (λ row, delete_request (drop_last (Rec.zone (heap w existing_))) (rr_id row))
            <$> zip_with row_of ids ps).
Proof.
  intros Hps Hget Hdel.
  apply _apply_delete_sent in Hdel as (rows & w1' & Hget' & ->).
  rewrite Hget in Hget'. injection Hget' as <- <-.
  rewrite (delete_test_on_create_rows _ _ _ Hps). by case_bool_decide.
Qed.

Lemma create_rows_matched_by_delete_witness :
  Rec.name (heap after_apex_create 1) = "" ∧
  zone_records ideal "example.com." after_apex_create
  = (inr (zip_with row_of ["0"] [param apex_A "1.1.1.1"]),
     (zone_records ideal "example.com." after_apex_create).2) ∧
  sent (_apply_delete ideal 1 after_apex_create).2
  = sent after_apex_create ++ [fetch_request "example.com"].
Proof.
  split; [reflexivity|].
  assert (zone_records ideal (Rec.zone (heap after_apex_create 1)) after_apex_create
          = (inr (zip_with row_of ["0"] [param apex_A "1.1.1.1"]),
             (zone_records ideal "example.com." after_apex_create).2)) as Hget
    by (vm_compute; reflexivity).
  split; [exact Hget|].
  rewrite (create_rows_matched_by_delete ideal 1 after_apex_create _ ["0"] _
             (_apply_delete ideal 1 after_apex_create).2 eq_refl Hget
             ltac:(vm_compute; reflexivity)).
  vm_compute. reflexivity.
Defined.
